(** * Chaos Meter: severity classifier, composite score engine, simulation
      overlay and attack sequencer of [src/blog_data.js]

    Shallow embedding of the dashboard's data engine.

    Modelling conventions.
    - A JavaScript number is an exact rational ([Q]); equality of numbers
      is [Qeq] ([==]).  Rounding of binary64 arithmetic and the non-finite
      values (Infinity, NaN) are outside the model; a division by zero,
      which the data model's [max > 0] rules out, is not represented.
    - A property that may be [undefined] is an [option].
    - A JavaScript object used as a map (chaosFactors, simulationValues,
      countryCoords) is an association list in insertion order, the order
      in which [Object.keys]/[Object.values] enumerate it.  The keys of an
      object are distinct: statements that read an entry back by its key
      assume [NoDup (keys o)].  Where the code reads [o[k]] under a name
      that comes from the snapshot or from [simulationValues]
      ([factorMeta[key]], [countryCoords[code]], [colors[type]],
      [chaosFactors[k]] in [applySimulation]), the names inherited from
      [Object.prototype] are looked up too; the objects keep the prototype
      of an object literal.
    - The module-level variables and the DOM nodes the functions touch are
      the fields of one record [World], threaded explicitly.
    - [Math.random], [Date.now] and [performance.now] are inputs.
    - The score loop is given a second time on binary64 floats, where a
      division 0/0 is NaN and sums depend on their order, for what the
      rationals cannot show. *)

From Stdlib Require Import QArith Qminmax Qround ZArith List String Bool.
From Stdlib Require Import Lia Lqa DecimalString Floats.
From Stdlib Require Import Permutation Sorted.
Import ListNotations.

Local Open Scope Q_scope.

(** ** Numbers *)

Definition Qltb (x y : Q) : bool := negb (Qle_bool y x).
Definition Qgeb (x y : Q) : bool := Qle_bool y x.
Definition Qgtb (x y : Q) : bool := negb (Qle_bool x y).

(** Truthiness of a number: every number but 0 (NaN is not modelled). *)
Definition truthy (x : Q) : bool := negb (Qeq_bool x 0).

(** [Math.min] and [Math.max] on two numbers. *)
Definition Math_min (x y : Q) : Q := if Qle_bool x y then x else y.
Definition Math_max (x y : Q) : Q := if Qle_bool x y then y else x.

(** [x.toFixed(1)].  ECMAScript picks the integer [n] for which [n/10 - x]
    is closest to zero, the larger [n] on a tie, after moving the sign of a
    negative [x] in front.  [tenths x] is that [n] for [0 <= x]. *)
Definition tenths (x : Q) : Z := Qfloor (x * 10 + (1 # 2)).

Definition render_tenths (n : Z) : string :=
  (NilZero.string_of_uint (N.to_uint (Z.to_N (n / 10)))
   ++ "." ++ NilZero.string_of_uint (N.to_uint (Z.to_N (n mod 10))))%string.

Definition toFixed1 (x : Q) : string :=
  if Qltb x 0 then ("-" ++ render_tenths (tenths (- x)))%string
  else render_tenths (tenths x).

(** ** Data model *)

(** A factor: static metadata merged with the live numeric fields. *)
Record Factor := mkFactor {
  f_name    : string;
  f_icon    : string;
  f_weight  : option Q;
  f_unit    : string;
  f_value   : option Q;
  f_max     : Q;
  f_reverse : bool;
  f_desc    : string
}.

Definition Factors := list (string * Factor).

(** [f.weight || 1]: a missing or zero weight counts as 1. *)
Definition weight_or_1 (f : Factor) : Q :=
  match f_weight f with
  | Some wt => if truthy wt then wt else 1
  | None => 1
  end.

(** The ratio both [getSeverity] and the score loops compute:
    [let n = val / max; if (rev) n = 1 - n]. *)
Definition normalized (val max : Q) (rev : bool) : Q :=
  let n := val / max in
  if rev then 1 - n else n.

(** ** Severity classifier *)

Inductive Severity :=
| severity_critical
| severity_high
| severity_medium
| severity_low.

Definition className (s : Severity) : string :=
  match s with
  | severity_critical => "severity-critical"
  | severity_high => "severity-high"
  | severity_medium => "severity-medium"
  | severity_low => "severity-low"
  end.

Definition getSeverity (val max : Q) (rev : bool) : Severity :=
  let n := val / max in
  let n := if rev then 1 - n else n in
  if Qgeb n (75 # 100) then severity_critical
  else if Qgeb n (5 # 10) then severity_high
  else if Qgeb n (25 # 100) then severity_medium
  else severity_low.

(** ** Objects used as maps *)

Section Obj.
Context {A : Type}.

(** [o[k]]: the entry stored under [k], if any. *)
Fixpoint obj_get (o : list (string * A)) (k : string) : option A :=
  match o with
  | [] => None
  | (k', a) :: rest => if String.eqb k' k then Some a else obj_get rest k
  end.

(** [o[k] = a]: overwrites an existing entry in place, appends a new one. *)
Fixpoint obj_set (k : string) (a : A) (o : list (string * A))
  : list (string * A) :=
  match o with
  | [] => [(k, a)]
  | (k', a') :: rest =>
      if String.eqb k' k then (k', a) :: rest
      else (k', a') :: obj_set k a rest
  end.

Definition keys (o : list (string * A)) : list string := map fst o.

End Obj.

(** ** Names every object inherits

    [chaosFactors], [simulationValues], [countryCoords], [factorMeta] and the
    colour table are plain objects: [o[k]] for a [k] that is not a key of
    [o] goes on to [Object.prototype], whose members are all truthy.  Under
    every name but [__proto__] the member is a function; [o.__proto__] is
    [Object.prototype] itself. *)
Definition object_prototype_names : list string :=
  [ "constructor"; "__defineGetter__"; "__defineSetter__"; "hasOwnProperty";
    "__lookupGetter__"; "__lookupSetter__"; "isPrototypeOf";
    "propertyIsEnumerable"; "toString"; "valueOf"; "__proto__";
    "toLocaleString" ]%string.

Definition inherited (k : string) : bool :=
  existsb (String.eqb k) object_prototype_names.

(** The inherited members that are functions. *)
Definition inherited_function (k : string) : bool :=
  inherited k && negb (String.eqb k "__proto__").

(** [String(member)] as V8 prints it. *)
Definition member_text (k : string) : string :=
  if String.eqb k "__proto__" then "[object Object]"%string
  else if String.eqb k "constructor"
       then "function Object() { [native code] }"%string
       else ("function " ++ k ++ "() { [native code] }")%string.

(** What [countryCoords[code]] is when it is truthy: an entry of the
    table, or the member of [Object.prototype] of that name, whose [x] and
    [y] are undefined. *)
Inductive Coord :=
| coord_xy (x y : Q)
| coord_member (name : string).

(** ** Page state *)

Record AttackEvent := mkAttack {
  a_from : string;
  a_to   : string;
  a_type : string
}.

(** The fields of the fetched [data.json] that the functions below read. *)
Record Snapshot := mkSnapshot {
  chaosIndex : option Q;
  attacks    : option (list AttackEvent)
}.

Inductive TimerCallback :=
| timer_animateAttack
| timer_manipulateData
| timer_showNextLog
| timer_generateTicker.

(** Nodes appended to the [attackOverlay] SVG element.
    [svg_path_undefined] is a path one of whose end points has no [x] and
    [y]: its data reads [undefined] there and [NaN] at the control
    point. *)
Inductive SvgNode :=
| svg_defs (filterIds : list string)
| svg_path (from ctrl to : Q * Q) (stroke : string) (filterId : string)
| svg_path_undefined (from to : Coord) (stroke : string) (filterId : string)
| svg_circle (r : Q) (fill : string) (opacity : option Q).

(** What the closure [animate] of one attack captures. *)
Record Animation := mkAnimation {
  an_pathLength : Q;
  an_startTime  : Q;
  an_duration   : Q;
  an_toCoord    : Coord;
  an_color      : string
}.

Record World := mkWorld {
  chaosFactors        : Factors;
  liveData            : option Snapshot;
  isSimulationMode    : bool;
  simulationValues    : list (string * option Q);
  realTimeIntervals   : list (TimerCallback * nat);
  attackIndex         : nat;
  (** textContent of the element [mainScore]; [None] when the page has
      no such element *)
  mainScore           : option string;
  (** children of the element [attackOverlay], oldest first *)
  attackOverlay       : option (list SvgNode);
  (** animations whose next frame is requested *)
  animations          : list Animation;
  (** whether the element [simulateModal] carries the class [active] *)
  simulateModalActive : bool;
  (** children of [logEntries] as (type, message), newest first *)
  logEntries          : option (list (string * string))
}.

Definition set_chaosFactors (x : Factors) (W : World) : World :=
  mkWorld x (liveData W) (isSimulationMode W) (simulationValues W)
    (realTimeIntervals W) (attackIndex W) (mainScore W) (attackOverlay W)
    (animations W) (simulateModalActive W) (logEntries W).

Definition set_isSimulationMode (x : bool) (W : World) : World :=
  mkWorld (chaosFactors W) (liveData W) x (simulationValues W)
    (realTimeIntervals W) (attackIndex W) (mainScore W) (attackOverlay W)
    (animations W) (simulateModalActive W) (logEntries W).

Definition set_simulationValues (x : list (string * option Q)) (W : World)
  : World :=
  mkWorld (chaosFactors W) (liveData W) (isSimulationMode W) x
    (realTimeIntervals W) (attackIndex W) (mainScore W) (attackOverlay W)
    (animations W) (simulateModalActive W) (logEntries W).

Definition set_realTimeIntervals (x : list (TimerCallback * nat)) (W : World)
  : World :=
  mkWorld (chaosFactors W) (liveData W) (isSimulationMode W)
    (simulationValues W) x (attackIndex W) (mainScore W) (attackOverlay W)
    (animations W) (simulateModalActive W) (logEntries W).

Definition set_attackIndex (x : nat) (W : World) : World :=
  mkWorld (chaosFactors W) (liveData W) (isSimulationMode W)
    (simulationValues W) (realTimeIntervals W) x (mainScore W)
    (attackOverlay W) (animations W) (simulateModalActive W) (logEntries W).

Definition set_mainScore (x : string) (W : World) : World :=
  mkWorld (chaosFactors W) (liveData W) (isSimulationMode W)
    (simulationValues W) (realTimeIntervals W) (attackIndex W) (Some x)
    (attackOverlay W) (animations W) (simulateModalActive W) (logEntries W).

Definition set_attackOverlay (x : list SvgNode) (W : World) : World :=
  mkWorld (chaosFactors W) (liveData W) (isSimulationMode W)
    (simulationValues W) (realTimeIntervals W) (attackIndex W) (mainScore W)
    (Some x) (animations W) (simulateModalActive W) (logEntries W).

Definition set_animations (x : list Animation) (W : World) : World :=
  mkWorld (chaosFactors W) (liveData W) (isSimulationMode W)
    (simulationValues W) (realTimeIntervals W) (attackIndex W) (mainScore W)
    (attackOverlay W) x (simulateModalActive W) (logEntries W).

Definition set_simulateModalActive (x : bool) (W : World) : World :=
  mkWorld (chaosFactors W) (liveData W) (isSimulationMode W)
    (simulationValues W) (realTimeIntervals W) (attackIndex W) (mainScore W)
    (attackOverlay W) (animations W) x (logEntries W).

Definition set_logEntries (x : list (string * string)) (W : World) : World :=
  mkWorld (chaosFactors W) (liveData W) (isSimulationMode W)
    (simulationValues W) (realTimeIntervals W) (attackIndex W) (mainScore W)
    (attackOverlay W) (animations W) (simulateModalActive W) (Some x).

(** ** Composite score engine *)

(** One round of the [forEach] of [updateScore], on the pair [(t, w)]. *)
Definition score_step (acc : Q * Q) (f : Factor) : Q * Q :=
  let '(t, w) := acc in
  match f_value f with
  | None => (t, w)
  | Some v =>
      let n := v / f_max f in
      let n := if f_reverse f then 1 - n else n in
      (t + n * weight_or_1 f, w + weight_or_1 f)
  end.

(** The value of [score] on the path that computes from the factors.
    On the rationals a quotient by 0 is 0, where JavaScript has Infinity
    or NaN: what is stated of the quotient [value/max] supposes [max]
    other than 0, and the guard [w > 0] is replayed in binary64 by
    [localScore64] below. *)
Definition localScore (cf : Factors) : Q :=
  let '(t, w) := fold_left score_step (map snd cf) (0, 0) in
  if Qgtb w 0 then (t / w) * 100 else 0.

(** [liveData && liveData.chaosIndex], when truthy. *)
Definition live_chaosIndex (W : World) : option Q :=
  match liveData W with
  | None => None
  | Some d =>
      match chaosIndex d with
      | Some c => if truthy c then Some c else None
      | None => None
      end
  end.

Definition updateScore (W : World) : World :=
  match mainScore W with
  | None => W
  | Some _ =>
      match live_chaosIndex W with
      | Some c => set_mainScore (toFixed1 c) W
      | None => set_mainScore (toFixed1 (localScore (chaosFactors W))) W
      end
  end.

(** ** System log *)

(** [addLog]: the entry goes in front, at most 15 entries are kept.  The
    time stamp in front of the message is left out. *)
Definition addLog (type message : string) (W : World) : World :=
  match logEntries W with
  | None => W
  | Some entries => set_logEntries (firstn 15 ((type, message) :: entries)) W
  end.

(** ** Timers *)

Definition pauseRealTimeUpdates (W : World) : World :=
  set_realTimeIntervals [] W.

Definition resumeRealTimeUpdates (W : World) : World :=
  set_realTimeIntervals
    (realTimeIntervals W ++
       [(timer_animateAttack, 400%nat); (timer_manipulateData, 800%nat);
        (timer_showNextLog, 2000%nat); (timer_generateTicker, 5000%nat)]) W.

(** ** Fallback perturbation *)

Definition set_value (v : option Q) (f : Factor) : Factor :=
  mkFactor (f_name f) (f_icon f) (f_weight f) (f_unit f) v (f_max f)
    (f_reverse f) (f_desc f).

(** The body of the [forEach] of [manipulateData] for a factor whose value
    is defined; [r] is what [Math.random()] returned. *)
Definition perturb (r : Q) (f : Factor) (v : Q) : Factor :=
  let delta := (r - (5 # 10)) * (f_max f * (2 # 100)) in
  set_value (Some (Math_max 0 (Math_min (f_max f) (v + delta)))) f.

(** [rand i] is the result of the [i]-th call of [Math.random] during one
    run of [manipulateData]; a factor without a value draws nothing. *)
Fixpoint manipulate_from (rand : nat -> Q) (i : nat) (cf : Factors)
  : Factors :=
  match cf with
  | [] => []
  | (k, f) :: rest =>
      match f_value f with
      | Some v => (k, perturb (rand i) f v) :: manipulate_from rand (S i) rest
      | None => (k, f) :: manipulate_from rand i rest
      end
  end.

Definition manipulateData (rand : nat -> Q) (W : World) : World :=
  set_chaosFactors (manipulate_from rand 0 (chaosFactors W)) W.

(** Successive runs, one source of random numbers per run. *)
Definition manipulateData_runs (rands : list (nat -> Q)) (W : World)
  : World :=
  fold_left (fun W' rand => manipulateData rand W') rands W.

(** ** Info card *)

(** One round of the [forEach] of [showInfoCard], on the pair
    [(totalWeightedSum, myWeightedVal)].  The objects stored in
    [chaosFactors] are pairwise distinct, so [factor === f] holds exactly
    for the entry under the hovered key. *)
Definition impact_step (key : string) (acc : Q * Q) (kf : string * Factor)
  : Q * Q :=
  let '(totalWeightedSum, myWeightedVal) := acc in
  let '(k, factor) := kf in
  match f_value factor with
  | None => (totalWeightedSum, myWeightedVal)
  | Some v =>
      let n := v / f_max factor in
      let n := if f_reverse factor then 1 - n else n in
      let wv := n * weight_or_1 factor in
      (totalWeightedSum + wv, if String.eqb k key then wv else myWeightedVal)
  end.

(** [impactPercent] as [showInfoCard key] computes it; [None] when
    [chaosFactors[key]] is missing and the function returns early. *)
Definition impactPercent (key : string) (cf : Factors) : option Q :=
  match obj_get cf key with
  | None => None
  | Some _ =>
      let '(totalWeightedSum, myWeightedVal) :=
        fold_left (impact_step key) cf (0, 0) in
      Some (if Qgtb totalWeightedSum 0
            then (myWeightedVal / totalWeightedSum) * 100 else 0)
  end.

(** ** Simulation mode *)

(** [simulationValues[k]] for a key [k] of [chaosFactors]; a missing key
    reads as [undefined].  (Were [k] an inherited name that
    [simulationValues] lacks, the read would be the inherited function,
    which is no value of a factor here.) *)
Definition sim_get (sim : list (string * option Q)) (k : string) : option Q :=
  match obj_get sim k with
  | Some v => v
  | None => None
  end.

(** [Object.keys(chaosFactors).forEach(k =>
      chaosFactors[k].value = simulationValues[k])] *)
Definition overlay_values (sim : list (string * option Q)) (cf : Factors)
  : Factors :=
  map (fun '(k, f) => (k, set_value (sim_get sim k) f)) cf.

Definition closeSimulationModal (W : World) : World :=
  set_simulateModalActive false W.

Definition updateSimulationScore (W : World) : World :=
  let original := map (fun '(k, f) => (k, f_value f)) (chaosFactors W) in
  let W1 :=
    set_chaosFactors (overlay_values (simulationValues W) (chaosFactors W)) W in
  let W2 := updateScore W1 in
  set_chaosFactors (overlay_values original (chaosFactors W2)) W2.

(** The sliders' markup is not modelled; the page is taken to contain the
    element [simulateModal]. *)
Definition openSimulationModal (W : World) : World :=
  let W1 := pauseRealTimeUpdates (set_isSimulationMode true W) in
  let W2 :=
    set_simulationValues
      (fold_left (fun sim '(k, f) => obj_set k (f_value f) sim)
         (chaosFactors W1) (simulationValues W1)) W1 in
  addLog "warn" "Simulation mode entered" (set_simulateModalActive true W2).

(** The [input] listener of the slider of factor [key], with
    [parseFloat(e.target.value)] as [value]. *)
Definition sliderInput (key : string) (value : Q) (W : World) : World :=
  updateSimulationScore
    (set_simulationValues (obj_set key (Some value) (simulationValues W)) W).

Definition exitSimulation (W : World) : World :=
  let W1 :=
    set_chaosFactors (overlay_values (simulationValues W) (chaosFactors W)) W in
  let W2 := resumeRealTimeUpdates (set_isSimulationMode false W1) in
  addLog "success" "Returned to live data mode"
    (closeSimulationModal (updateScore W2)).

(** [chaosFactors[k].value = v] for one key.  When [k] is not a key of
    [chaosFactors]: under the name of an inherited function the assignment
    sets a property of that function and changes no factor; [None] stands
    for the other cases, where [chaosFactors[k]] is undefined and the
    assignment throws or, under [__proto__], writes [Object.prototype.value],
    which the model does not follow. *)
Fixpoint assign_value (k : string) (v : option Q) (cf : Factors)
  : option Factors :=
  match cf with
  | [] => if inherited_function k then Some [] else None
  | (k', f) :: rest =>
      if String.eqb k' k then Some ((k', set_value v f) :: rest)
      else option_map (cons (k', f)) (assign_value k v rest)
  end.

Definition applySimulation (W : World) : option World :=
  match
    fold_left
      (fun acc '(k, v) =>
         match acc with
         | Some cf => assign_value k v cf
         | None => None
         end)
      (simulationValues W) (Some (chaosFactors W))
  with
  | None => None
  | Some cf =>
      Some (closeSimulationModal
              (addLog "success" "Simulation values applied"
                 (updateScore (set_chaosFactors cf W))))
  end.

(** ** Attack map *)

(** The coordinate table. *)
Definition countryCoords : list (string * (Q * Q)) :=
  [ ("CN", (78, 35)); ("RU", (65, 25)); ("US", (20, 38));
    ("KP", (81, 34)); ("IR", (60, 40)); ("BR", (30, 62));
    ("IN", (70, 45)); ("VN", (77, 48)); ("TR", (55, 36));
    ("UA", (55, 28)); ("ID", (80, 58)); ("PK", (67, 42));
    ("NG", (48, 52)); ("RO", (53, 32)); ("PH", (82, 50));
    ("TH", (75, 48)); ("MY", (76, 54)); ("MX", (15, 45));
    ("AR", (28, 75)); ("EG", (54, 43));
    ("GB", (47, 28)); ("DE", (50, 28)); ("FR", (48, 32));
    ("JP", (85, 35)); ("AU", (88, 72)); ("CA", (18, 30));
    ("KR", (82, 37)); ("NL", (49, 27)); ("SG", (77, 55));
    ("CH", (49, 30)); ("IT", (51, 33)); ("ES", (45, 35));
    ("SE", (52, 22)); ("BE", (48, 28)); ("IL", (57, 40));
    ("AE", (62, 44)); ("TW", (82, 44)); ("PL", (52, 28)) ]%string.

(** [countryCoords[code]]: [None] when it is undefined. *)
Definition lookup_coord (code : string) : option Coord :=
  match obj_get countryCoords code with
  | Some (x, y) => Some (coord_xy x y)
  | None => if inherited code then Some (coord_member code) else None
  end.

(** [colors[type] || '#ff6b6b'], as the text the [stroke] and [fill]
    attributes receive. *)
Definition getAttackColor (type : string) : string :=
  let colors :=
    [ ("DDoS", "#ff6b6b"); ("Ransomware", "#ee5a5a");
      ("Phishing", "#ffa94d"); ("Botnet", "#cc5de8");
      ("Exploit", "#74c0fc"); ("Brute Force", "#69db7c");
      ("SQLi", "#ff8787") ]%string in
  match obj_get colors type with
  | Some c => c
  | None => if inherited type then member_text type else "#ff6b6b"%string
  end.

(** What one call of [animateAttack] reads from the browser. *)
Record Env := mkEnv {
  random_midY     : Q;  (* Math.random() in the control point *)
  random_duration : Q;  (* Math.random() in the duration *)
  date_now        : Z;  (* Date.now() *)
  performance_now : Q;  (* performance.now() *)
  total_length    : Q   (* path.getTotalLength() of the new path *)
}.

Inductive Outcome :=
| Normal (W : World)
| TypeError.

(** [defs.innerHTML += filter], on the [defs] of the overlay when it has
    one, else on a fresh [defs] that is appended. *)
Fixpoint add_filter (id : string) (children : list SvgNode) : list SvgNode :=
  match children with
  | [] => [svg_defs [id]]
  | svg_defs ids :: rest => svg_defs (ids ++ [id]) :: rest
  | node :: rest => node :: add_filter id rest
  end.

Definition trailCount : nat := 5.

(** The [i]-th trail circle: radius and opacity [0.6 - i * 0.1]. *)
Definition trail_node (color : string) (i : nat) : SvgNode :=
  let a := (6 # 10) - inject_Z (Z.of_nat i) * (1 # 10) in
  svg_circle a color (Some a).

(** The new [path]: a quadratic curve through a control point above the
    end points when both have coordinates. *)
Definition path_node (env : Env) (fromCoord toCoord : Coord)
  (color filterId : string) : SvgNode :=
  match fromCoord, toCoord with
  | coord_xy fromX fromY, coord_xy toX toY =>
      let midX := (fromX + toX) / 2 in
      let midY := Math_min fromY toY - 10 - random_midY env * 5 in
      svg_path (fromX, fromY) (midX, midY) (toX, toY) color filterId
  | _, _ => svg_path_undefined fromCoord toCoord color filterId
  end.

Definition animateAttack (env : Env) (W : World) : Outcome :=
  match liveData W with
  | None => Normal W
  | Some d =>
      match attacks d with
      | None => Normal W
      | Some [] => Normal W
      | Some evs =>
          match nth_error evs (attackIndex W mod List.length evs) with
          | None => TypeError
          | Some attack =>
              let W1 := set_attackIndex (S (attackIndex W)) W in
              match lookup_coord (a_from attack),
                    lookup_coord (a_to attack) with
              | Some fromCoord, Some toCoord =>
                  match attackOverlay W1 with
                  | None => Normal W1
                  | Some children =>
                      let color := getAttackColor (a_type attack) in
                      let filterId :=
                        ("glow-" ++
                         NilZero.string_of_int (Z.to_int (date_now env)))%string in
                      let path :=
                        path_node env fromCoord toCoord color filterId in
                      let pathLength := total_length env in
                      let duration := 1200 + random_duration env * 400 in
                      let startTime := performance_now env in
                      let particle := svg_circle (8 # 10) color None in
                      let trails := map (trail_node color) (seq 0 trailCount) in
                      let W2 :=
                        set_attackOverlay
                          (add_filter filterId children
                             ++ [path] ++ [particle] ++ trails) W1 in
                      Normal
                        (set_animations
                           (animations W2 ++
                              [mkAnimation pathLength startTime duration
                                 toCoord color]) W2)
                  end
              | _, _ => Normal W1
              end
          end
      end
  end.

(** The event the next call of [animateAttack] takes from the list. *)
Definition nextAttack (W : World) : option AttackEvent :=
  match liveData W with
  | None => None
  | Some d =>
      match attacks d with
      | None => None
      | Some evs => nth_error evs (attackIndex W mod List.length evs)
      end
  end.

(** What one call of [animate] writes. *)
Record Frame := mkFrame {
  strokeDashoffset : Q;       (* path.style.strokeDashoffset *)
  strokeOpacity    : Q;       (* the path's stroke-opacity *)
  particleAt       : Q;       (* argument of getPointAtLength, particle *)
  trailsAt         : list Q;  (* argument of getPointAtLength, per trail *)
  frameRequested   : bool     (* whether requestAnimationFrame is called *)
}.

(** [Math.pow(x, 3)] *)
Definition pow3 (x : Q) : Q := x ^ 3.

Definition progress_of (a : Animation) (currentTime : Q) : Q :=
  let elapsed := currentTime - an_startTime a in
  Math_min (elapsed / an_duration a) 1.

Definition ease (progress : Q) : Q :=
  if Qltb progress (5 # 10)
  then 4 * progress * progress * progress
  else 1 - pow3 (-2 * progress + 2) / 2.

Definition animate (a : Animation) (currentTime : Q) : Frame :=
  let pathLength := an_pathLength a in
  let progress := progress_of a currentTime in
  let eased := ease progress in
  mkFrame
    (pathLength * (1 - eased))
    (Math_min (eased * 2) (7 # 10))
    (pathLength * eased)
    (map (fun i =>
            let trailProgress :=
              Math_max 0 (eased - (inject_Z (Z.of_nat i) + 1) * (3 # 100)) in
            pathLength * trailProgress)
         (seq 0 trailCount))
    (Qltb progress 1).

(** ** The score loop in binary64

    The same loop on IEEE 754 doubles, the numbers JavaScript computes
    with, to replay a scenario with its rounding. *)

Record Factor64 := mkFactor64 {
  value64   : option float;
  max64     : float;
  weight64  : option float;
  reverse64 : bool
}.

(** Truthiness of a double: neither 0 nor NaN. *)
Definition truthy64 (x : float) : bool :=
  negb (PrimFloat.eqb x 0 || PrimFloat.is_nan x).

Definition weight_or_1_64 (f : Factor64) : float :=
  match weight64 f with
  | Some wt => if truthy64 wt then wt else 1%float
  | None => 1%float
  end.

Definition score_step64 (acc : float * float) (f : Factor64) : float * float :=
  let '(t, w) := acc in
  match value64 f with
  | None => (t, w)
  | Some v =>
      let n := (v / max64 f)%float in
      let n := if reverse64 f then (1 - n)%float else n in
      ((t + n * weight_or_1_64 f)%float, (w + weight_or_1_64 f)%float)
  end.

Definition localScore64 (cf : list (string * Factor64)) : float :=
  let '(t, w) := fold_left score_step64 (map snd cf) (0%float, 0%float) in
  if PrimFloat.ltb 0 w then ((t / w) * 100)%float else 0%float.

(** ** The aggregate and the contributions in the specification's words *)

Definition Qsum (l : list Q) : Q := fold_right Qplus 0 l.

(** The factors with a defined value, each with its key and that value. *)
Definition eligible (cf : Factors) : list (string * Factor * Q) :=
  flat_map
    (fun '(k, f) =>
       match f_value f with
       | Some v => [(k, f, v)]
       | None => []
       end) cf.

(** [n * weight] of one eligible factor. *)
Definition weighted_term (e : string * Factor * Q) : Q :=
  let '(_, f, v) := e in
  normalized v (f_max f) (f_reverse f) * weight_or_1 f.

Definition spec_weighted_sum (cf : Factors) : Q :=
  Qsum (map weighted_term (eligible cf)).

Definition spec_weight_sum (cf : Factors) : Q :=
  Qsum (map (fun '(_, f, _) => weight_or_1 f) (eligible cf)).


(** The easing curve in the specification's words:
    [4t^3] for [t < 0.5], else [1 - (-2t+2)^3/2]. *)
Definition ease_spec (t : Q) : Q :=
  if Qlt_le_dec t (1 # 2) then 4 * t ^ 3 else 1 - (-2 * t + 2) ^ 3 / 2.

(** ** Observations and invariants used in the statements *)

(** [impactPercent] of the factor under [key], 0 when the card is not
    shown. *)
Definition impact_of (cf : Factors) (key : string) : Q :=
  match impactPercent key cf with
  | Some p => p
  | None => 0
  end.

(** [chaosFactors[k].value] *)
Definition value_of (W : World) (k : string) : option Q :=
  match obj_get (chaosFactors W) k with
  | Some f => f_value f
  | None => None
  end.

(** The weight of a Factor of the data model: missing, zero or positive. *)
Definition Factor_ok (f : Factor) : Prop :=
  forall wt, f_weight f = Some wt -> 0 <= wt.

Definition Factors_ok (cf : Factors) : Prop :=
  Forall (fun kf => Factor_ok (snd kf)) cf.

(** A factor whose value is defined and lies in [[0, max]]. *)
Definition in_range (f : Factor) : Prop :=
  exists v, f_value f = Some v /\ 0 <= v <= f_max f.

(** [fromCoord && toCoord]: an event is drawn only when
    [countryCoords[code]] is truthy for both of its codes. *)
Definition resolvable (e : AttackEvent) : bool :=
  match lookup_coord (a_from e), lookup_coord (a_to e) with
  | Some _, Some _ => true
  | _, _ => false
  end.

(** ** Scenarios *)

(** a: value 80 of 100, weight 20. *)
Definition factor_a : Factor :=
  mkFactor "a" "" (Some 20) "" (Some 80) 100 false "".

(** b: value 10 of 50, weight 10, reverse. *)
Definition factor_b : Factor :=
  mkFactor "b" "" (Some 10) "" (Some 10) 50 true "".

Definition scenario_factors : Factors :=
  [("a", factor_a); ("b", factor_b)]%string.

Definition scenario_factors64 : list (string * Factor64) :=
  [ ("a", mkFactor64 (Some 80%float) 100%float (Some 20%float) false);
    ("b", mkFactor64 (Some 10%float) 50%float (Some 10%float) true) ]%string.

(** A page with its score element, overlay and log, nothing loaded. *)
Definition empty_world : World :=
  mkWorld [] None false [] [] 0%nat (Some ""%string) (Some []) [] false
    (Some []).

(** A page showing the two factors of the scenario, no snapshot loaded. *)
Definition scenario_world : World :=
  set_chaosFactors scenario_factors empty_world.

(** A page showing factor a alone. *)
Definition world_a : World :=
  set_chaosFactors [("a", factor_a)]%string empty_world.

(** [W] after a snapshot with the aggregate [c] has been loaded. *)
Definition with_chaosIndex (c : Q) (W : World) : World :=
  mkWorld (chaosFactors W) (Some (mkSnapshot (Some c) None))
    (isSimulationMode W) (simulationValues W) (realTimeIntervals W)
    (attackIndex W) (mainScore W) (attackOverlay W) (animations W)
    (simulateModalActive W) (logEntries W).

(** Factor a at 80, a snapshot with chaosIndex 42.7 loaded, and an overlay
    that sets a to 0. *)
Definition sim_world : World :=
  set_simulationValues [("a", Some 0)]%string
    (with_chaosIndex (427 # 10) world_a).

(** A session on factor a: the modal is opened and the slider of a is
    dragged to 0. *)
Definition session_world : World :=
  sliderInput "a" 0 (openSimulationModal world_a).

(** An animation of a path of length 100 that starts at time 0 and lasts
    1200. *)
Definition animation_100 : Animation :=
  mkAnimation 100 0 1200 (coord_xy 20 38) "#ff6b6b".

(** A snapshot with three attacks, the second from an unmapped code. *)
Definition attack_list : list AttackEvent :=
  [ mkAttack "CN" "US" "DDoS"; mkAttack "XX" "US" "Botnet";
    mkAttack "RU" "DE" "Phishing" ]%string.

Definition attack_world (index : nat) : World :=
  mkWorld [] (Some (mkSnapshot None (Some attack_list))) false [] [] index
    (Some ""%string) (Some []) [] false (Some []).

Definition env_0 : Env := mkEnv 0 0 0 0 100.

(** ** Tiles *)

Inductive TileClass :=
| tile_xxl
| tile_xl
| tile_lg
| tile_md
| tile_sm.

(** [getTileClass(f.weight)]; every comparison with a missing weight is
    false. *)
Definition getTileClass (weight : option Q) : TileClass :=
  match weight with
  | None => tile_sm
  | Some wt =>
      if Qgeb wt 10 then tile_xxl
      else if Qgeb wt 6 then tile_xl
      else if Qgeb wt 4 then tile_lg
      else if Qgeb wt 3 then tile_md
      else tile_sm
  end.

(** [x.toFixed(0)] *)
Definition toFixed0 (x : Q) : string :=
  if Qltb x 0
  then ("-" ++ NilZero.string_of_uint
                 (N.to_uint (Z.to_N (Qfloor (- x + (1 # 2))))))%string
  else NilZero.string_of_uint (N.to_uint (Z.to_N (Qfloor (x + (1 # 2))))).

(** [v % 1 === 0] *)
Definition is_whole (v : Q) : bool := Qeq_bool (inject_Z (Qfloor v)) v.

Definition fmt (v : Q) : string :=
  if Qgeb v 1000000 then (toFixed1 (v / 1000000) ++ "M")%string
  else if Qgeb v 1000 then (toFixed1 (v / 1000) ++ "K")%string
  else if is_whole v then toFixed0 v else toFixed1 v.

(** [f.weight || 0] *)
Definition weight_or_0 (f : Factor) : Q :=
  match f_weight f with
  | Some wt => wt
  | None => 0
  end.

Definition has_value (f : Factor) : bool :=
  match f_value f with
  | Some _ => true
  | None => false
  end.

(** [entries.sort((a, b) => (b[1].weight || 0) - (a[1].weight || 0))].
    [Array.prototype.sort] is stable, so its result is the one of a stable
    insertion sort: an entry goes in front of the first entry that is not
    heavier. *)
Fixpoint insert_by_weight (x : string * Factor) (l : Factors) : Factors :=
  match l with
  | [] => [x]
  | y :: rest =>
      if Qle_bool (weight_or_0 (snd y)) (weight_or_0 (snd x))
      then x :: y :: rest
      else y :: insert_by_weight x rest
  end.

Definition sort_by_weight (l : Factors) : Factors :=
  fold_right insert_by_weight [] l.

(** One [div.chaos-tile] of the grid. *)
Record Tile := mkTile {
  t_key      : string;
  t_class    : TileClass;
  t_severity : Severity;
  t_icon     : string;
  t_name     : string;
  t_value    : string
}.

(** The tile of one entry that passed the filter. *)
Definition tile_of (kf : string * Factor) : Tile :=
  let '(k, f) := kf in
  match f_value f with
  | Some v =>
      mkTile k (getTileClass (f_weight f))
        (getSeverity v (f_max f) (f_reverse f)) (f_icon f) (f_name f)
        (fmt v ++ f_unit f)
  | None =>
      mkTile k (getTileClass (f_weight f)) severity_low (f_icon f) (f_name f)
        ("NaN" ++ f_unit f)
  end.

(** The tiles [generateTiles] writes, for a page whose [tilesGrid] holds
    [grid]; [None] is a page without that element. *)
Definition generateTiles (cf : Factors) (grid : option (list Tile))
  : option (list Tile) :=
  match grid with
  | None => None
  | Some _ =>
      Some (map tile_of
              (sort_by_weight (filter (fun kf => has_value (snd kf)) cf)))
  end.

(** ** Merging a snapshot into the factors *)

Record FactorMeta := mkMeta {
  m_name   : string;
  m_icon   : string;
  m_weight : Q;
  m_unit   : string;
  m_desc   : string
}.

Definition factorMeta : list (string * FactorMeta) :=
  [ ("solar", mkMeta "Solar Storm" "☀️" 15 "Kp"
                "Geomagnetic storm activity (NOAA)");
    ("zeroday", mkMeta "Zero-Day" "🎯" 15 ""
                  "Critical vulnerabilities (NVD)");
    ("malware", mkMeta "Malware" "🦠" 15 "" "Active malware URLs (URLhaus)");
    ("botnet", mkMeta "Botnet" "🤖" 15 "K" "Botnet C2 IPs (FeodoTracker)");
    ("ransom", mkMeta "Ransomware" "💀" 20 ""
                 "Ransomware victims (RansomWatch)");
    ("crypto", mkMeta "Crypto Vol" "₿" 10 "%" "Market volatility (CoinGecko)");
    ("fear", mkMeta "Fear Index" "😨" 10 ""
               "Crypto fear & greed (Alternative.me)") ]%string.

(** An entry of [liveData.chaosFactors]: value, max and reverse, and any
    of the other fields of a factor, should the document carry them. *)
Record LiveFactor := mkLive {
  l_value   : option Q;
  l_max     : Q;
  l_reverse : bool;
  l_name    : option string;
  l_icon    : option string;
  l_weight  : option Q;
  l_unit    : option string;
  l_desc    : option string
}.

(** An entry with value, max and reverse only. *)
Definition live_plain (value : option Q) (max : Q) (reverse : bool)
  : LiveFactor :=
  mkLive value max reverse None None None None None.

(** A text field after the spread: the entry's when it has one, else the
    metadata's; with neither, the text a template prints for the missing
    field. *)
Definition spread_text (meta live : option string) : string :=
  match live, meta with
  | Some t, _ => t
  | None, Some t => t
  | None, None => "undefined"%string
  end.

(** [{...factorMeta[key], ...liveData.chaosFactors[key]}]: every field of
    the entry overrides the metadata's.  [m] is [None] when
    [factorMeta[key]] is an inherited member, which spreads to nothing. *)
Definition merge_factor (m : option FactorMeta) (l : LiveFactor) : Factor :=
  mkFactor
    (spread_text (option_map m_name m) (l_name l))
    (spread_text (option_map m_icon m) (l_icon l))
    (match l_weight l with
     | Some wt => Some wt
     | None => option_map m_weight m
     end)
    (spread_text (option_map m_unit m) (l_unit l))
    (l_value l) (l_max l) (l_reverse l)
    (spread_text (option_map m_desc m) (l_desc l)).

(** The factor that [updateFromLiveData] stores under [key], if it stores
    one: [factorMeta[key]] must be truthy, which it is for a key of the
    table and for an inherited name.  Under [__proto__] the assignment
    [chaosFactors[key] = ...] replaces the prototype of [chaosFactors] and
    adds no entry; the model does not follow the new prototype. *)
Definition merged (key : string) (l : LiveFactor) : option Factor :=
  match obj_get factorMeta key with
  | Some m => Some (merge_factor (Some m) l)
  | None =>
      if inherited_function key then Some (merge_factor None l) else None
  end.

(** The [forEach] of [updateFromLiveData] over [live], the mapping
    [liveData.chaosFactors]. *)
Definition merge_live (live : list (string * LiveFactor)) (cf : Factors)
  : Factors :=
  fold_left
    (fun cf0 '(key, l) =>
       match merged key l with
       | Some f => obj_set key f cf0
       | None => cf0
       end) live cf.

(** The two elements [updateFromLiveData] renders into: the children of
    [tilesGrid] and of [newsTicker], [None] for an element the page does
    not have. *)
Record Panels := mkPanels {
  tilesGrid  : option (list Tile);
  newsTicker : option (list string)
}.

(** [updateNewsTicker]: one [div.news-item] per headline, three times
    over. *)
Definition updateNewsTicker (headlines : list string)
  (ticker : option (list string)) : option (list string) :=
  match ticker with
  | None => None
  | Some _ => Some (headlines ++ headlines ++ headlines)
  end.

(** [updateFromLiveData], with [liveData.chaosFactors] as [live] and
    [liveData.headlines] as [headlines]. *)
Definition updateFromLiveData (live : list (string * LiveFactor))
  (headlines : option (list string)) (W : World) (P : Panels)
  : World * Panels :=
  match liveData W with
  | None => (W, P)
  | Some _ =>
      let W1 := set_chaosFactors (merge_live live (chaosFactors W)) W in
      let grid := generateTiles (chaosFactors W1) (tilesGrid P) in
      let W2 := updateScore W1 in
      let ticker :=
        match headlines with
        | Some (h :: hs) => updateNewsTicker (h :: hs) (newsTicker P)
        | _ => newsTicker P
        end in
      (W2, mkPanels grid ticker)
  end.

(** ** Sequences of events *)

(** The slider listener fired for each (key, value) of [moves] in turn. *)
Definition sliderInputs (moves : list (string * Q)) (W : World) : World :=
  fold_left (fun W0 '(key, value) => sliderInput key value W0) moves W.

(** One call of [animateAttack] per element of [envs], as the 400 ms timer
    makes them. *)
Fixpoint animateAttack_ticks (envs : list Env) (W : World) : Outcome :=
  match envs with
  | [] => Normal W
  | env :: rest =>
      match animateAttack env W with
      | Normal W' => animateAttack_ticks rest W'
      | TypeError => TypeError
      end
  end.

(** ** Info card position *)

(** [left] and [top] in pixels as [moveInfoCard] sets them, from the
    pointer position, the card's size and the window's inner size. *)
Definition moveInfoCard (clientX clientY width height innerWidth innerHeight : Q)
  : Q * Q :=
  let x := clientX + 15 in
  let y := clientY in
  (if Qgtb (x + width) innerWidth then clientX - width - 15 else x,
   if Qgtb (y + height) innerHeight then y - height else y).

(** ** Orders on the classes *)

Definition severity_rank (s : Severity) : nat :=
  match s with
  | severity_low => 0
  | severity_medium => 1
  | severity_high => 2
  | severity_critical => 3
  end.

Definition tile_rank (c : TileClass) : nat :=
  match c with
  | tile_sm => 0
  | tile_md => 1
  | tile_lg => 2
  | tile_xl => 3
  | tile_xxl => 4
  end.

(** The values of a Factor of the data model: [max > 0] and a value, when
    defined, in [[0, max]]. *)
Definition Factor_bounded (f : Factor) : Prop :=
  0 < f_max f /\ forall v, f_value f = Some v -> 0 <= v <= f_max f.

Definition Factors_bounded (cf : Factors) : Prop :=
  Forall (fun kf => Factor_bounded (snd kf)) cf.

(** [a] is listed before [b] by weight: [b] is not heavier. *)
Definition not_heavier (a b : string * Factor) : Prop :=
  weight_or_0 (snd b) <= weight_or_0 (snd a).

(** Tile [b] is not larger than tile [a]. *)
Definition not_larger (a b : Tile) : Prop :=
  (tile_rank (t_class b) <= tile_rank (t_class a))%nat.

(** The entries whose weight is [w]. *)
Definition of_weight (w : Q) (l : Factors) : Factors :=
  filter (fun kf => Qeq_bool (weight_or_0 (snd kf)) w) l.

(** ** What the page can do *)

Definition set_liveData (d : Snapshot) (W : World) : World :=
  mkWorld (chaosFactors W) (Some d) (isSimulationMode W) (simulationValues W)
    (realTimeIntervals W) (attackIndex W) (mainScore W) (attackOverlay W)
    (animations W) (simulateModalActive W) (logEntries W).

(** One callback of the page, from state [W] to state [W']: a poll that
    succeeds ([fetchData] stores the document and calls
    [updateFromLiveData]), a perturbation (the 800 ms timer, or a poll that
    fails), the three buttons of the simulation, a slider of a factor, a
    tick of the attack timer, a log entry. *)
Inductive step : World -> World -> Prop :=
| step_poll (d : Snapshot) (live : list (string * LiveFactor))
    (headlines : option (list string)) (P : Panels) (W : World) :
    step W (fst (updateFromLiveData live headlines (set_liveData d W) P))
| step_perturb (rand : nat -> Q) (W : World) :
    step W (manipulateData rand W)
| step_open (W : World) :
    step W (openSimulationModal W)
| step_slider (key : string) (value : Q) (W : World) :
    In key (keys (chaosFactors W)) ->
    step W (sliderInput key value W)
| step_exit (W : World) :
    step W (exitSimulation W)
| step_apply (W W' : World) :
    applySimulation W = Some W' ->
    step W W'
| step_attack (env : Env) (W W' : World) :
    animateAttack env W = Normal W' ->
    step W W'
| step_log (type message : string) (W : World) :
    step W (addLog type message W).

(** The states the page reaches from its start, where [chaosFactors] and
    [simulationValues] are empty objects. *)
Inductive reachable : World -> Prop :=
| reach_start (W : World) :
    chaosFactors W = [] -> simulationValues W = [] -> reachable W
| reach_step (W W' : World) :
    reachable W -> step W W' -> reachable W'.

(** Keys are distinct and the overlay only has keys of factors. *)
Definition page_invariant (W : World) : Prop :=
  NoDup (keys (chaosFactors W)) /\
  NoDup (keys (simulationValues W)) /\
  incl (keys (simulationValues W)) (keys (chaosFactors W)).

(** The page after its first poll brought solar at 3 of 9. *)
Definition polled_world : World :=
  fst (updateFromLiveData [("solar", live_plain (Some 3) 9 false)]%string None
         (set_liveData (mkSnapshot None None) empty_world)
         (mkPanels (Some []) (Some []))).

(** The value the slider of [key] was last moved to, if it was moved. *)
Definition last_move (moves : list (string * Q)) (key : string) : option Q :=
  obj_get (rev moves) key.

(** The four timers [resumeRealTimeUpdates] registers. *)
Definition resumed_timers : list (TimerCallback * nat) :=
  [(timer_animateAttack, 400%nat); (timer_manipulateData, 800%nat);
   (timer_showNextLog, 2000%nat); (timer_generateTicker, 5000%nat)].



(** [addLog] called for each (type, message) of [msgs] in turn. *)
Definition addLogs (msgs : list (string * string)) (W : World) : World :=
  fold_left (fun W0 '(type, message) => addLog type message W0) msgs W.

(** ** The aggregate in the specification's words, written on its own

    [n = value/max], or [1 - value/max] when reverse is set; a missing or
    zero weight counts as 1; the sums run over the factors with a defined
    value. *)

Definition spec_n (f : Factor) (v : Q) : Q :=
  if f_reverse f then 1 - v / f_max f else v / f_max f.

Definition spec_weight (f : Factor) : Q :=
  match f_weight f with
  | None => 1
  | Some wt => if Qeq_dec wt 0 then 1 else wt
  end.

Definition spec_sum_nw (cf : Factors) : Q :=
  Qsum (map (fun '(_, f, v) => spec_n f v * spec_weight f) (eligible cf)).

Definition spec_sum_w (cf : Factors) : Q :=
  Qsum (map (fun '(_, f, _) => spec_weight f) (eligible cf)).

(** No factor with a defined value has a maximum of 0: every [value/max]
    of the loop is a division by a number other than zero. *)
Definition max_nonzero (cf : Factors) : Prop :=
  forall k f v, In (k, f, v) (eligible cf) -> ~ f_max f == 0.

(** A single factor at 50 of 100 with weight -3. *)
Definition negative_weight_factors : Factors :=
  [("c", mkFactor "c" "" (Some (-3)) "" (Some 50) 100 false "")]%string.

Definition negative_weight_factors64 : list (string * Factor64) :=
  [("c", mkFactor64 (Some 50%float) 100%float (Some (-3)%float) false)]%string.

(** Two factors whose ratios differ: 100 of 100 with weight 30 and 0 of
    100 with weight 10. *)
Definition uneven_factors : Factors :=
  [("p", mkFactor "p" "" (Some 30) "" (Some 100) 100 false "");
   ("q", mkFactor "q" "" (Some 10) "" (Some 0) 100 false "")]%string.

(** A two-letter code: what the snapshot's attacks carry. *)
Definition two_letter (code : string) : Prop := String.length code = 2%nat.



(** A snapshot's factors: solar with a weight of its own, an entry under
    an inherited name and one under a key without metadata. *)
Definition overriding_live : list (string * LiveFactor) :=
  [("solar", mkLive (Some 3) 9 false None None (Some (-3)) None None);
   ("toString", live_plain (Some 1) 2 false);
   ("unknown", live_plain (Some 1) 2 false)]%string.

(** The factors after that snapshot was merged into the page of a. *)
Definition overridden_factors : Factors :=
  chaosFactors
    (fst (updateFromLiveData overriding_live None
            (with_chaosIndex 50 world_a) (mkPanels None None))).

(** ** Boolean comparisons *)

Lemma Qgeb_true (x y : Q) : Qgeb x y = true <-> y <= x.
Proof. unfold Qgeb. apply Qle_bool_iff. Qed.

Lemma Qgeb_false (x y : Q) : Qgeb x y = false <-> x < y.
Proof.
  unfold Qgeb. split; intro H.
  - apply Qnot_le_lt. intro Hle. apply Qle_bool_iff in Hle. congruence.
  - destruct (Qle_bool y x) eqn:E; [|reflexivity].
    apply Qle_bool_iff in E. exfalso. lra.
Qed.

Lemma Qltb_true (x y : Q) : Qltb x y = true <-> x < y.
Proof.
  unfold Qltb. rewrite negb_true_iff. apply (Qgeb_false x y).
Qed.

Lemma Qltb_false (x y : Q) : Qltb x y = false <-> y <= x.
Proof.
  unfold Qltb. rewrite negb_false_iff. apply (Qgeb_true x y).
Qed.

Lemma Qgtb_true (x y : Q) : Qgtb x y = true <-> y < x.
Proof. apply (Qltb_true y x). Qed.

Lemma Qgtb_false (x y : Q) : Qgtb x y = false <-> x <= y.
Proof. apply (Qltb_false y x). Qed.

Lemma truthy_true (x : Q) : truthy x = true <-> ~ x == 0.
Proof.
  unfold truthy. rewrite negb_true_iff. split; intro H.
  - intro E. apply Qeq_bool_iff in E. congruence.
  - destruct (Qeq_bool x 0) eqn:E; [|reflexivity].
    apply Qeq_bool_iff in E. contradiction.
Qed.

Lemma truthy_false (x : Q) : truthy x = false <-> x == 0.
Proof.
  unfold truthy. rewrite negb_false_iff. apply Qeq_bool_iff.
Qed.

Ltac qcases :=
  repeat match goal with
  | |- context [Qgeb ?a ?b] =>
      let E := fresh "E" in
      destruct (Qgeb a b) eqn:E;
      [apply Qgeb_true in E | apply Qgeb_false in E]
  | |- context [Qltb ?a ?b] =>
      let E := fresh "E" in
      destruct (Qltb a b) eqn:E;
      [apply Qltb_true in E | apply Qltb_false in E]
  | |- context [Qgtb ?a ?b] =>
      let E := fresh "E" in
      destruct (Qgtb a b) eqn:E;
      [apply Qgtb_true in E | apply Qgtb_false in E]
  end.

(** ** Severity classifier: thresholds *)

Lemma getSeverity_normalized (val max : Q) (rev : bool) :
  getSeverity val max rev =
  let n := normalized val max rev in
  if Qgeb n (75 # 100) then severity_critical
  else if Qgeb n (5 # 10) then severity_high
  else if Qgeb n (25 # 100) then severity_medium
  else severity_low.
Proof. reflexivity. Qed.

#[global] Instance normalized_Proper :
  Proper (Qeq ==> Qeq ==> eq ==> Qeq) normalized.
Proof.
  intros v v' Hv m m' Hm r r' <-. unfold normalized.
  destruct r; rewrite Hv, Hm; reflexivity.
Qed.

(** C4.  For every value, every max > 0 and every reverse flag, with
    n = value/max (1 - value/max when reverse is set), the classifier
    returns critical exactly when n >= 0.75, high exactly when
    0.50 <= n < 0.75, medium exactly when 0.25 <= n < 0.50 and low exactly
    when n < 0.25; inputs that are equal as numbers get the same class. *)
Theorem getSeverity_thresholds (val max : Q) (rev : bool) :
  0 < max ->
  let n := normalized val max rev in
  (getSeverity val max rev = severity_critical <-> (75 # 100) <= n) /\
  (getSeverity val max rev = severity_high <-> (5 # 10) <= n /\ n < (75 # 100)) /\
  (getSeverity val max rev = severity_medium <-> (25 # 100) <= n /\ n < (5 # 10)) /\
  (getSeverity val max rev = severity_low <-> n < (25 # 100)) /\
  (forall val' max', val' == val -> max' == max ->
     getSeverity val' max' rev = getSeverity val max rev).
Proof.
  intros _ n. rewrite getSeverity_normalized. fold n. cbv zeta.
  split; [|split; [|split; [|split]]].
  1-4: split; qcases; intros; try discriminate; try reflexivity;
       try (split; lra); try lra; try (exfalso; lra).
  intros val' max' Hv Hm. rewrite !getSeverity_normalized. cbv zeta.
  assert (Hn : normalized val' max' rev == n)
    by (unfold n; rewrite Hv, Hm; reflexivity).
  assert (G : forall c, Qgeb (normalized val' max' rev) c = Qgeb n c).
  { intro c. unfold Qgeb.
    destruct (Qle_bool c n) eqn:E.
    - apply Qle_bool_iff. apply Qle_bool_iff in E. rewrite Hn. exact E.
    - destruct (Qle_bool c (normalized val' max' rev)) eqn:E'; [|reflexivity].
      apply Qle_bool_iff in E'. rewrite Hn in E'.
      apply Qle_bool_iff in E'. congruence. }
  rewrite !G. reflexivity.
Qed.

Lemma getSeverity_thresholds_witness :
  getSeverity 80 100 false = severity_critical <->
  (75 # 100) <= normalized 80 100 false.
Proof.
  apply (getSeverity_thresholds 80 100 false). reflexivity.
Defined.

(** ** Composite score engine: the loop computes the two sums *)

Lemma score_fold_sums (cf : Factors) :
  forall t w,
    fst (fold_left score_step (map snd cf) (t, w)) == t + spec_weighted_sum cf /\
    snd (fold_left score_step (map snd cf) (t, w)) == w + spec_weight_sum cf.
Proof.
  unfold spec_weighted_sum, spec_weight_sum.
  induction cf as [|[k f] rest IH]; intros t w; simpl.
  - split; ring.
  - destruct (f_value f) as [v|] eqn:Ev; simpl.
    + destruct (IH (t + (if f_reverse f then 1 - v / f_max f else v / f_max f)
                        * weight_or_1 f) (w + weight_or_1 f)) as [Ht Hw].
      rewrite Ht, Hw. unfold normalized. split; ring.
    + apply IH.
Qed.

Lemma weight_or_1_pos (f : Factor) :
  (forall wt, f_weight f = Some wt -> 0 <= wt) -> 0 < weight_or_1 f.
Proof.
  intro H. unfold weight_or_1.
  destruct (f_weight f) as [wt|]; [|reflexivity].
  specialize (H wt eq_refl).
  destruct (truthy wt) eqn:E; [|reflexivity].
  apply truthy_true in E. lra.
Qed.


Lemma localScore_no_eligible (cf : Factors) :
  eligible cf = [] -> localScore cf = 0.
Proof.
  intro He. unfold localScore.
  destruct (score_fold_sums cf 0 0) as [_ Hw].
  destruct (fold_left score_step (map snd cf) (0, 0)) as [t w].
  simpl in Hw. unfold spec_weight_sum in Hw. rewrite He in Hw. simpl in Hw.
  assert (E : Qgtb w 0 = false) by (apply Qgtb_false; lra).
  rewrite E. reflexivity.
Qed.

(** In binary64 the guard [w > 0] keeps 0/0 from being computed: with no
    defined value the score is the double 0, not NaN. *)
Lemma localScore64_no_value (cf : list (string * Factor64)) :
  Forall (fun kf => value64 (snd kf) = None) cf ->
  localScore64 cf = 0%float.
Proof.
  intro H. unfold localScore64.
  assert (E : forall acc, fold_left score_step64 (map snd cf) acc = acc).
  { induction H as [|[k f] rest Hf _ IH]; intro acc; simpl.
    - reflexivity.
    - simpl in Hf. unfold score_step64 at 2. destruct acc as [t w].
      rewrite Hf. apply IH. }
  rewrite E. reflexivity.
Qed.

(** In binary64 too the scenario comes out at exactly 80. *)
Lemma localScore64_scenario : localScore64 scenario_factors64 = 80%float.
Proof. vm_compute. reflexivity. Qed.

(** The sums written from the specification are the sums of the loop. *)
Lemma spec_weight_weight_or_1 (f : Factor) : spec_weight f = weight_or_1 f.
Proof.
  unfold spec_weight, weight_or_1.
  destruct (f_weight f) as [wt|]; [|reflexivity].
  destruct (Qeq_dec wt 0) as [E | E].
  - apply truthy_false in E. rewrite E. reflexivity.
  - apply truthy_true in E. rewrite E. reflexivity.
Qed.

Lemma spec_sums (cf : Factors) :
  spec_sum_nw cf = spec_weighted_sum cf /\
  spec_sum_w cf = spec_weight_sum cf.
Proof.
  unfold spec_sum_nw, spec_sum_w, spec_weighted_sum, spec_weight_sum.
  split; f_equal; apply map_ext; intros [[k f] v];
    unfold weighted_term, spec_n, normalized;
    rewrite spec_weight_weight_or_1; reflexivity.
Qed.

Lemma localScore_guarded (cf : Factors) :
  localScore cf ==
  if Qlt_le_dec 0 (spec_sum_w cf)
  then 100 * (spec_sum_nw cf / spec_sum_w cf) else 0.
Proof.
  destruct (spec_sums cf) as [Enw Ew]. rewrite Enw, Ew.
  unfold localScore.
  destruct (score_fold_sums cf 0 0) as [Ht Hw].
  destruct (fold_left score_step (map snd cf) (0, 0)) as [t w].
  simpl in Ht, Hw.
  destruct (Qlt_le_dec 0 (spec_weight_sum cf)) as [Hpos | Hle].
  - assert (E : Qgtb w 0 = true) by (apply Qgtb_true; lra).
    rewrite E, Ht, Hw. field. lra.
  - assert (E : Qgtb w 0 = false) by (apply Qgtb_false; lra).
    rewrite E. reflexivity.
Qed.

(** C1, as stated, fails for a factor with a negative weight: the weight
    sum of one factor at 50 of 100 with weight -3 is -3, not zero, and
    100 times the quotient of the sums is 50, yet the loop's guard
    [w > 0] makes the score 0; so it is in binary64. *)
Lemma updateScore_negative_weight :
  eligible negative_weight_factors <> [] /\
  spec_sum_w negative_weight_factors == -3 /\
  100 * (spec_sum_nw negative_weight_factors
         / spec_sum_w negative_weight_factors) == 50 /\
  localScore negative_weight_factors == 0 /\
  localScore64 negative_weight_factors64 = 0%float.
Proof.
  split; [discriminate|].
  split; [reflexivity|]. split; [reflexivity|].
  split; [reflexivity|]. vm_compute. reflexivity.
Qed.

(** C1.  For every factor mapping in which no maximum of a factor with a
    defined value is 0, the score computed from the factors is, when the
    sum of the weights of the factors with a defined value is positive,
    100 times the sum of n*weight over those factors divided by that
    weight sum (n = value/max, or 1 - value/max under reverse; a missing
    or zero weight counts as 1), and exactly 0 when that sum is not
    positive.  With no defined value at all it is exactly 0, and in
    binary64 arithmetic the double 0, not NaN.  For a (80 of 100, weight
    20) and b (10 of 50, weight 10, reverse) it is 80, in binary64 too,
    and is shown as 80.0. *)
Theorem updateScore_guarded_mean :
  (forall cf, max_nonzero cf ->
     localScore cf ==
     if Qlt_le_dec 0 (spec_sum_w cf)
     then 100 * (spec_sum_nw cf / spec_sum_w cf) else 0) /\
  (forall cf, eligible cf = [] -> localScore cf = 0) /\
  (forall cf64, Forall (fun kf => value64 (snd kf) = None) cf64 ->
     localScore64 cf64 = 0%float) /\
  localScore scenario_factors == 80 /\
  localScore64 scenario_factors64 = 80%float /\
  mainScore (updateScore scenario_world) = Some "80.0"%string.
Proof.
  split; [intros cf _; apply localScore_guarded|].
  split; [exact localScore_no_eligible|].
  split; [exact localScore64_no_value|].
  split; [vm_compute; reflexivity|].
  split; [exact localScore64_scenario|].
  vm_compute. reflexivity.
Qed.

Lemma updateScore_guarded_mean_witness :
  localScore uneven_factors ==
  (if Qlt_le_dec 0 (spec_sum_w uneven_factors)
   then 100 * (spec_sum_nw uneven_factors / spec_sum_w uneven_factors)
   else 0) /\
  localScore [("idle", mkFactor "idle" "" None "" None 1 false "")]%string = 0.
Proof.
  split.
  - apply (proj1 updateScore_guarded_mean uneven_factors).
    intros k f v Hin. simpl in Hin.
    destruct Hin as [E | [E | []]]; inversion E; subst; discriminate.
  - apply (proj1 (proj2 updateScore_guarded_mean)). reflexivity.
Defined.

(** ** Precedence of the snapshot's aggregate *)

Lemma live_chaosIndex_supplied (W : World) d c :
  liveData W = Some d -> chaosIndex d = Some c -> ~ c == 0 ->
  live_chaosIndex W = Some c.
Proof.
  intros Hd Hc Hnz. unfold live_chaosIndex. rewrite Hd, Hc.
  apply truthy_true in Hnz. rewrite Hnz. reflexivity.
Qed.

Lemma live_chaosIndex_absent (W : World) :
  liveData W = None \/ (exists d, liveData W = Some d /\ chaosIndex d = None) ->
  live_chaosIndex W = None.
Proof.
  unfold live_chaosIndex. intros [H | [d [Hd Hc]]].
  - rewrite H. reflexivity.
  - rewrite Hd, Hc. reflexivity.
Qed.

(** A supplied chaosIndex of 0 is falsy: the score is computed locally. *)
Lemma updateScore_zero_chaosIndex (W : World) d c :
  mainScore W <> None ->
  liveData W = Some d -> chaosIndex d = Some c -> c == 0 ->
  mainScore (updateScore W) = Some (toFixed1 (localScore (chaosFactors W))).
Proof.
  intros Hel Hd Hc Hz. unfold updateScore.
  destruct (mainScore W) as [txt|]; [|contradiction].
  unfold live_chaosIndex. rewrite Hd, Hc.
  apply truthy_false in Hz. rewrite Hz. reflexivity.
Qed.

(** C2 as stated fails.  A supplied aggregate of 42.74 is shown as 42.7,
    the very text shown for 42.7; and a supplied aggregate of 0 is not
    shown at all, the page shows the 80.0 computed from the factors. *)
Lemma updateScore_chaosIndex_not_exact :
  (mainScore (updateScore (with_chaosIndex (4274 # 100) scenario_world))
   = mainScore (updateScore (with_chaosIndex (427 # 10) scenario_world)) /\
   ~ (4274 # 100) == (427 # 10)) /\
  (mainScore (updateScore (with_chaosIndex 0 scenario_world))
   = Some "80.0"%string /\
   toFixed1 0 = "0.0"%string).
Proof.
  repeat split; try (vm_compute; reflexivity).
  intro H. vm_compute in H. discriminate.
Qed.

(** C2, amended.  For every snapshot that supplies a non-zero chaosIndex,
    the score element shows that value in the one-decimal rendering of
    toFixed(1), whatever the local factor values are; when no snapshot is
    loaded or the snapshot has no chaosIndex, it shows the score computed
    from the factors; a chaosIndex of 42.7 is shown as 42.7. *)
Theorem updateScore_prefers_chaosIndex :
  (forall W d c,
     mainScore W <> None ->
     liveData W = Some d -> chaosIndex d = Some c -> ~ c == 0 ->
     mainScore (updateScore W) = Some (toFixed1 c)) /\
  (forall W,
     mainScore W <> None ->
     liveData W = None \/
       (exists d, liveData W = Some d /\ chaosIndex d = None) ->
     mainScore (updateScore W)
     = Some (toFixed1 (localScore (chaosFactors W)))) /\
  mainScore (updateScore (with_chaosIndex (427 # 10) scenario_world))
  = Some "42.7"%string.
Proof.
  split; [|split].
  - intros W d c Hel Hd Hc Hnz. unfold updateScore.
    destruct (mainScore W) as [txt|]; [|contradiction].
    rewrite (live_chaosIndex_supplied W d c Hd Hc Hnz). reflexivity.
  - intros W Hel Habs. unfold updateScore.
    destruct (mainScore W) as [txt|]; [|contradiction].
    rewrite (live_chaosIndex_absent W Habs). reflexivity.
  - vm_compute. reflexivity.
Qed.

Lemma updateScore_prefers_chaosIndex_witness :
  mainScore (updateScore (with_chaosIndex (427 # 10) world_a))
  = Some (toFixed1 (427 # 10)).
Proof.
  apply (proj1 updateScore_prefers_chaosIndex
           (with_chaosIndex (427 # 10) world_a)
           (mkSnapshot (Some (427 # 10)) None) (427 # 10)).
  - simpl. discriminate.
  - reflexivity.
  - reflexivity.
  - intro H. vm_compute in H. discriminate.
Defined.

(** ** Simulation overlay *)

Lemma obj_get_In {A : Type} (o : list (string * A)) k a :
  NoDup (keys o) -> In (k, a) o -> obj_get o k = Some a.
Proof.
  induction o as [|[k' a'] rest IH]; simpl; intros Hnd Hin.
  - contradiction.
  - inversion Hnd as [|? ? Hnotin Hrest]; subst.
    destruct Hin as [E | Hin].
    + inversion E; subst. rewrite String.eqb_refl. reflexivity.
    + destruct (String.eqb k' k) eqn:Ek.
      * apply String.eqb_eq in Ek. subst k'.
        exfalso. apply Hnotin. unfold keys.
        change k with (fst (k, a)). apply in_map. exact Hin.
      * apply IH; assumption.
Qed.

Lemma set_value_same (f : Factor) x : set_value (f_value f) (set_value x f) = f.
Proof. destruct f; reflexivity. Qed.

Lemma updateScore_chaosFactors (W : World) :
  chaosFactors (updateScore W) = chaosFactors W.
Proof.
  unfold updateScore.
  destruct (mainScore W); [|reflexivity].
  destruct (live_chaosIndex W); reflexivity.
Qed.

Lemma overlay_values_restore (sim : list (string * option Q)) (cf : Factors) :
  NoDup (keys cf) ->
  overlay_values (map (fun '(k, f) => (k, f_value f)) cf)
    (overlay_values sim cf) = cf.
Proof.
  intro Hnd. unfold overlay_values. rewrite map_map.
  rewrite <- (map_id cf) at 2. apply map_ext_in.
  intros [k f] Hin. f_equal.
  unfold sim_get.
  rewrite (obj_get_In (map (fun '(k0, f0) => (k0, f_value f0)) cf) k (f_value f)).
  - apply set_value_same.
  - unfold keys. rewrite map_map.
    erewrite map_ext; [exact Hnd|]. intros [k0 f0]. reflexivity.
  - change (k, f_value f) with ((fun '(k0, f0) => (k0, f_value f0)) (k, f)).
    apply in_map. exact Hin.
Qed.

(** Whatever the overlay holds, [updateSimulationScore] leaves every
    factor as it found it. *)
Lemma updateSimulationScore_restores (W : World) :
  NoDup (keys (chaosFactors W)) ->
  chaosFactors (updateSimulationScore W) = chaosFactors W.
Proof.
  intro Hnd. unfold updateSimulationScore. simpl.
  rewrite updateScore_chaosFactors. simpl.
  apply overlay_values_restore. exact Hnd.
Qed.


(** C8 fails on the code.  With a snapshot that carries chaosIndex 42.7
    loaded, factor a at 80 and an overlay setting a to 0,
    [updateSimulationScore] shows 42.7, not the 0.0 derived from the
    overlay; a is back at 80 afterwards. *)
Theorem updateSimulationScore_shows_chaosIndex :
  mainScore (updateSimulationScore sim_world) = Some "42.7"%string /\
  toFixed1
    (localScore
       (overlay_values (simulationValues sim_world) (chaosFactors sim_world)))
  = "0.0"%string /\
  value_of (updateSimulationScore sim_world) "a" = Some 80.
Proof.
  repeat split; vm_compute; reflexivity.
Qed.

Lemma exitSimulation_chaosFactors (W : World) :
  chaosFactors (exitSimulation W)
  = overlay_values (simulationValues W) (chaosFactors W).
Proof.
  unfold exitSimulation, addLog, closeSimulationModal. simpl.
  match goal with
  | |- context [logEntries ?X] => destruct (logEntries X)
  end; simpl; rewrite updateScore_chaosFactors; reflexivity.
Qed.

Lemma obj_get_obj_set_eq {A : Type} (o : list (string * A)) k a :
  obj_get (obj_set k a o) k = Some a.
Proof.
  induction o as [|[k' a'] rest IH]; simpl.
  - rewrite String.eqb_refl. reflexivity.
  - destruct (String.eqb k' k) eqn:E; simpl; rewrite E; [reflexivity|exact IH].
Qed.

Lemma obj_get_obj_set_neq {A : Type} (o : list (string * A)) k k' a :
  k' <> k -> obj_get (obj_set k' a o) k = obj_get o k.
Proof.
  intro Hne. induction o as [|[k0 a0] rest IH]; simpl.
  - apply String.eqb_neq in Hne. rewrite Hne. reflexivity.
  - destruct (String.eqb k0 k') eqn:E; simpl.
    + apply String.eqb_eq in E. subst k0.
      apply String.eqb_neq in Hne. rewrite Hne. reflexivity.
    + rewrite IH. reflexivity.
Qed.

(** The loop under [Save current values] of [openSimulationModal]. *)
Lemma save_values_other (cf : Factors) :
  forall sim k,
    ~ In k (keys cf) ->
    obj_get
      (fold_left (fun sim0 '(k0, f0) => obj_set k0 (f_value f0) sim0) cf sim) k
    = obj_get sim k.
Proof.
  induction cf as [|[k1 f1] rest IH]; simpl; intros sim k Hnotin.
  - reflexivity.
  - rewrite IH by tauto. apply obj_get_obj_set_neq. tauto.
Qed.

Lemma save_values_get (cf : Factors) :
  forall sim k f,
    NoDup (keys cf) -> In (k, f) cf ->
    obj_get
      (fold_left (fun sim0 '(k0, f0) => obj_set k0 (f_value f0) sim0) cf sim) k
    = Some (f_value f).
Proof.
  induction cf as [|[k1 f1] rest IH]; simpl; intros sim k f Hnd Hin.
  - contradiction.
  - inversion Hnd as [|? ? Hnotin Hrest]; subst.
    destruct Hin as [E | Hin].
    + inversion E; subst k1 f1.
      rewrite save_values_other by exact Hnotin.
      apply obj_get_obj_set_eq.
    + apply IH; assumption.
Qed.

Lemma openSimulationModal_chaosFactors (W : World) :
  chaosFactors (openSimulationModal W) = chaosFactors W.
Proof.
  unfold openSimulationModal, addLog. simpl.
  destruct (logEntries W); reflexivity.
Qed.

Lemma openSimulationModal_simulationValues (W : World) :
  simulationValues (openSimulationModal W)
  = fold_left (fun sim0 '(k0, f0) => obj_set k0 (f_value f0) sim0)
      (chaosFactors W) (simulationValues W).
Proof.
  unfold openSimulationModal, addLog. simpl.
  destruct (logEntries W); reflexivity.
Qed.

(** As long as no slider has moved, leaving the simulation puts back the
    values saved when it was entered. *)
Lemma exitSimulation_untouched (W : World) :
  NoDup (keys (chaosFactors W)) ->
  chaosFactors (exitSimulation (openSimulationModal W)) = chaosFactors W.
Proof.
  intro Hnd. rewrite exitSimulation_chaosFactors.
  rewrite openSimulationModal_chaosFactors, openSimulationModal_simulationValues.
  unfold overlay_values.
  etransitivity; [|apply map_id]. apply map_ext_in.
  intros [k f] Hin. f_equal. unfold sim_get.
  rewrite (save_values_get (chaosFactors W) (simulationValues W) k f Hnd Hin).
  destruct f; reflexivity.
Qed.

(** [applySimulation] is the commit: it writes the overlay of the session
    into the factor. *)
Lemma applySimulation_commits :
  option_map (fun W => value_of W "a") (applySimulation session_world)
  = Some (Some 0).
Proof. vm_compute. reflexivity. Qed.

(** C3 fails on the code.  Factor a is at 80 when the session begins and
    still at 80 after its slider is dragged to 0, but [exitSimulation]
    leaves it at 0. *)
Theorem exitSimulation_keeps_slider_value :
  value_of world_a "a" = Some 80 /\
  value_of session_world "a" = Some 80 /\
  value_of (exitSimulation session_world) "a" = Some 0.
Proof.
  repeat split; vm_compute; reflexivity.
Qed.

(** ** Fallback perturbation *)

Lemma Qle_bool_false (x y : Q) : Qle_bool x y = false <-> y < x.
Proof. apply (Qgeb_false y x). Qed.

Lemma clamp_range (m x : Q) :
  0 <= m -> 0 <= Math_max 0 (Math_min m x) <= m.
Proof.
  intro Hm. unfold Math_max, Math_min.
  destruct (Qle_bool m x) eqn:E1.
  - destruct (Qle_bool 0 m) eqn:E2.
    + lra.
    + apply Qle_bool_false in E2. lra.
  - apply Qle_bool_false in E1.
    destruct (Qle_bool 0 x) eqn:E2.
    + apply Qle_bool_iff in E2. lra.
    + lra.
Qed.

(** The delta is within one percent of [max]. *)
Lemma perturb_delta_bound (r m : Q) :
  0 <= r -> r < 1 -> 0 < m ->
  - (m * (1 # 100)) <= (r - (5 # 10)) * (m * (2 # 100)) /\
  (r - (5 # 10)) * (m * (2 # 100)) < m * (1 # 100).
Proof.
  intros H0 H1 Hm.
  assert (E : (r - (5 # 10)) * (m * (2 # 100))
              == (m * (2 # 100)) * r - m * (1 # 100)) by ring.
  rewrite E. clear E.
  assert (Hk : 0 < m * (2 # 100)) by lra.
  assert (A : 0 <= (m * (2 # 100)) * r)
    by (apply Qmult_le_0_compat; lra).
  assert (B : (m * (2 # 100)) * r < (m * (2 # 100)) * 1)
    by (apply Qmult_lt_l; assumption).
  split; lra.
Qed.

Lemma perturb_in_range (r : Q) (f : Factor) (v : Q) :
  0 <= f_max f -> in_range (perturb r f v).
Proof.
  intro Hm. unfold in_range, perturb. simpl.
  eexists. split; [reflexivity|]. apply clamp_range. exact Hm.
Qed.

Lemma manipulate_from_get (rand : nat -> Q) (cf : Factors) :
  forall i k f,
    obj_get cf k = Some f ->
    exists f',
      obj_get (manipulate_from rand i cf) k = Some f' /\
      f_max f' = f_max f /\
      (0 <= f_max f -> f_value f <> None -> in_range f') /\
      (f_value f = None -> f' = f).
Proof.
  induction cf as [|[k0 f0] rest IH]; simpl; intros i k f Hget.
  - discriminate.
  - destruct (f_value f0) as [v0|] eqn:Ev; simpl;
      destruct (String.eqb k0 k) eqn:Ek.
    + inversion Hget; subst f0. eexists. split; [reflexivity|].
      split; [reflexivity|]. split.
      * intros Hm _. apply perturb_in_range. exact Hm.
      * intro Hn. congruence.
    + apply IH. exact Hget.
    + inversion Hget; subst f0. exists f. repeat split; auto.
      intros _ Hn. contradiction.
    + apply IH. exact Hget.
Qed.

(** C5.  A factor with a defined value in [[0, max]] and max > 0 still has
    a defined value in [[0, max]], and the same max, after any number of
    successive runs of the fallback perturbation, whatever numbers the
    runs draw. *)
Theorem manipulateData_stays_in_range (rands : list (nat -> Q)) :
  forall (W : World) (k : string) (f : Factor),
    obj_get (chaosFactors W) k = Some f ->
    0 < f_max f ->
    in_range f ->
    exists f',
      obj_get (chaosFactors (manipulateData_runs rands W)) k = Some f' /\
      f_max f' = f_max f /\
      in_range f'.
Proof.
  induction rands as [|rand rest IH]; simpl; intros W k f Hget Hm Hin.
  - exists f. auto.
  - destruct (manipulate_from_get rand (chaosFactors W) 0%nat k f Hget)
      as [f1 [Hget1 [Hmax1 [Hrange1 _]]]].
    assert (Hin1 : in_range f1).
    { apply Hrange1; [lra|]. destruct Hin as [v [Ev _]]. congruence. }
    destruct (IH (manipulateData rand W) k f1) as [f' [Hget' [Hmax' Hin']]].
    + exact Hget1.
    + rewrite Hmax1. exact Hm.
    + exact Hin1.
    + exists f'. split; [exact Hget'|]. split; [congruence|exact Hin'].
Qed.

Lemma manipulateData_stays_in_range_witness :
  exists f',
    obj_get
      (chaosFactors
         (manipulateData_runs
            [(fun _ => 0); (fun _ => 9 # 10); (fun _ => 0)] world_a))
      "a" = Some f' /\
    f_max f' = f_max factor_a /\
    in_range f'.
Proof.
  apply (manipulateData_stays_in_range
           [(fun _ => 0); (fun _ => 9 # 10); (fun _ => 0)]
           world_a "a" factor_a).
  - reflexivity.
  - reflexivity.
  - exists 80. split; [reflexivity|]. split; discriminate.
Defined.

(** ** Attack animation: one frame *)

Lemma Math_max_Qmax (x y : Q) : Math_max x y == Qmax x y.
Proof.
  unfold Math_max. destruct (Qle_bool x y) eqn:E.
  - apply Qle_bool_iff in E. symmetry. apply Q.max_r. exact E.
  - apply Qle_bool_false in E. symmetry. apply Q.max_l. lra.
Qed.

Lemma ease_ease_spec (t : Q) : ease t == ease_spec t.
Proof.
  unfold ease, ease_spec, pow3.
  destruct (Qlt_le_dec t (1 # 2)) as [H | H].
  - assert (E : Qltb t (5 # 10) = true) by (apply Qltb_true; lra).
    rewrite E. simpl. ring.
  - assert (E : Qltb t (5 # 10) = false) by (apply Qltb_false; lra).
    rewrite E. reflexivity.
Qed.

Lemma nth_map_seq (g : nat -> Q) (n i : nat) :
  (i < n)%nat -> nth i (map g (seq 0 n)) 0 = g i.
Proof.
  intro H.
  rewrite (nth_indep _ 0 (g 0%nat)) by (rewrite length_map, length_seq; exact H).
  rewrite map_nth. rewrite seq_nth by exact H. reflexivity.
Qed.

(** C6 as stated fails for the trails.  Halfway through an animation of a
    path of length 100 the traversal fraction is 0.5; the trail with index
    0 is then at arclength 47, not at 100 * max(0, 0.5 - 0 * 0.03) = 50. *)
Lemma animate_first_trail_lags :
  frameRequested (animate animation_100 600) = true /\
  ease (progress_of animation_100 600) == 1 # 2 /\
  nth 0 (trailsAt (animate animation_100 600)) 0 == 47 /\
  ~ nth 0 (trailsAt (animate animation_100 600)) 0
    == an_pathLength animation_100
       * Qmax 0 (ease (progress_of animation_100 600)
                 - inject_Z (Z.of_nat 0) * (3 # 100)).
Proof.
  repeat split; try (vm_compute; reflexivity).
  intro H. vm_compute in H. discriminate.
Qed.

(** C6, amended.  On every frame, with eased the traversal fraction
    (eased(t) = 4t^3 for t < 0.5, else 1 - (-2t+2)^3/2, at the progress of
    the frame), the dash offset is pathLength * (1 - eased), the lead
    particle is at arclength pathLength * eased, there are five trails, and
    the trail with index i, counted from 0, is at arclength
    pathLength * max(0, eased - (i + 1) * 0.03). *)
Theorem animate_frame (a : Animation) (currentTime : Q) :
  let eased := ease_spec (progress_of a currentTime) in
  let fr := animate a currentTime in
  strokeDashoffset fr == an_pathLength a * (1 - eased) /\
  particleAt fr == an_pathLength a * eased /\
  List.length (trailsAt fr) = 5%nat /\
  forall i : nat,
    (i < 5)%nat ->
    nth i (trailsAt fr) 0
    == an_pathLength a
       * Qmax 0 (eased - (inject_Z (Z.of_nat i) + 1) * (3 # 100)).
Proof.
  intros eased fr. unfold fr, animate.
  cbn [strokeDashoffset particleAt trailsAt].
  pose proof (ease_ease_spec (progress_of a currentTime)) as He.
  fold eased in He.
  split; [rewrite He; reflexivity|].
  split; [rewrite He; reflexivity|].
  split; [reflexivity|].
  intros i Hi.
  rewrite (nth_map_seq
             (fun i0 : nat =>
                an_pathLength a *
                Math_max 0
                  (ease (progress_of a currentTime)
                   - (inject_Z (Z.of_nat i0) + 1) * (3 # 100)))
             trailCount i Hi).
  rewrite Math_max_Qmax, He. reflexivity.
Qed.

Lemma animate_frame_witness :
  nth 0 (trailsAt (animate animation_100 600)) 0
  == an_pathLength animation_100
     * Qmax 0 (ease_spec (progress_of animation_100 600)
               - (inject_Z (Z.of_nat 0) + 1) * (3 # 100)).
Proof.
  apply (animate_frame animation_100 600). lia.
Defined.

(** ** Attack sequencer *)

Lemma nextAttack_inv (W : World) (e : AttackEvent) :
  nextAttack W = Some e ->
  exists d evs,
    liveData W = Some d /\ attacks d = Some evs /\ evs <> [] /\
    nth_error evs (attackIndex W mod List.length evs) = Some e.
Proof.
  unfold nextAttack. intro H.
  destruct (liveData W) as [d|]; [|discriminate].
  destruct (attacks d) as [evs|] eqn:Ha; [|discriminate].
  exists d, evs. repeat split; auto.
  intro E. subst evs. rewrite nth_error_nil in H. discriminate.
Qed.

Lemma nextAttack_some (W : World) d evs :
  liveData W = Some d -> attacks d = Some evs -> evs <> [] ->
  exists e, nextAttack W = Some e.
Proof.
  intros Hd Ha Hne. unfold nextAttack. rewrite Hd, Ha.
  destruct (nth_error evs (attackIndex W mod List.length evs)) as [e|] eqn:E.
  - exists e. reflexivity.
  - exfalso. apply nth_error_None in E.
    assert (List.length evs <> 0)%nat
      by (destruct evs; [contradiction | simpl; lia]).
    pose proof (Nat.mod_upper_bound (attackIndex W) (List.length evs)). lia.
Qed.


(** No two-letter code is a name that objects inherit. *)
Lemma two_letter_not_inherited (code : string) :
  two_letter code -> inherited code = false.
Proof.
  unfold two_letter, inherited, object_prototype_names. intro H.
  cbn [existsb].
  repeat match goal with
  | |- (String.eqb code ?n || _)%bool = false =>
      destruct (String.eqb_spec code n) as [E | _];
        [rewrite E in H; discriminate H | cbn [orb]]
  end.
  reflexivity.
Qed.


(** What a call does once it has taken event [e] from the list. *)
Lemma animateAttack_dropped (env : Env) (W : World) (e : AttackEvent) :
  nextAttack W = Some e ->
  resolvable e = false ->
  animateAttack env W = Normal (set_attackIndex (S (attackIndex W)) W).
Proof.
  intros Hnext Hres.
  destruct (nextAttack_inv W e Hnext) as [d [evs [Hd [Ha [Hne Hnth]]]]].
  unfold animateAttack. rewrite Hd, Ha.
  destruct evs as [|e0 rest]; [contradiction|].
  rewrite Hnth. unfold resolvable in Hres.
  destruct (lookup_coord (a_from e)),
           (lookup_coord (a_to e));
    try discriminate; reflexivity.
Qed.

Lemma animateAttack_index (env : Env) (W : World) (e : AttackEvent) :
  nextAttack W = Some e ->
  exists W',
    animateAttack env W = Normal W' /\
    attackIndex W' = S (attackIndex W) /\
    liveData W' = liveData W.
Proof.
  intro Hnext.
  destruct (nextAttack_inv W e Hnext) as [d [evs [Hd [Ha [Hne Hnth]]]]].
  unfold animateAttack. rewrite Hd, Ha.
  destruct evs as [|e0 rest]; [contradiction|].
  rewrite Hnth.
  destruct (lookup_coord (a_from e)),
           (lookup_coord (a_to e));
    try (eexists; repeat split; try reflexivity; exact Hd).
  simpl attackOverlay.
  destruct (attackOverlay W); eexists; repeat split; try reflexivity;
    exact Hd.
Qed.

(** No call of [animateAttack] throws: the index it reads is in range. *)
Lemma animateAttack_never_throws (env : Env) (W : World) :
  animateAttack env W <> TypeError.
Proof.
  destruct (nextAttack W) as [e|] eqn:Hnext.
  - destruct (animateAttack_index env W e Hnext) as [W' [H _]].
    rewrite H. discriminate.
  - unfold animateAttack. unfold nextAttack in Hnext.
    destruct (liveData W) as [d|] eqn:Hd; [|discriminate].
    destruct (attacks d) as [evs|] eqn:Ha; [|discriminate].
    destruct evs as [|e0 rest]; [discriminate|].
    destruct (nextAttack_some W d (e0 :: rest) Hd Ha) as [e He];
      [discriminate|].
    unfold nextAttack in He. rewrite Hd, Ha in He. congruence.
Qed.




Lemma succ_mod_neq (i n : nat) :
  (1 < n)%nat -> (S i mod n <> i mod n)%nat.
Proof.
  intro Hn.
  assert (Hn0 : n <> 0%nat) by lia.
  pose proof (Nat.mod_upper_bound i n Hn0) as Hr.
  replace (S i) with (i + 1)%nat by lia.
  rewrite (Nat.Div0.add_mod i 1 n).
  rewrite (Nat.mod_small 1 n Hn).
  destruct (Nat.eq_dec (i mod n + 1) n) as [E | E].
  - rewrite E, Nat.Div0.mod_same. lia.
  - rewrite Nat.mod_small by lia. lia.
Qed.

(** C10.  With a non-empty event list, every call of [animateAttack]
    takes the event at the cyclic index, returns with the index advanced
    by exactly one, and leaves the following event of the cycle as the one
    the next call takes; when the event taken has an unmapped code, the
    call starts no animation and changes nothing but the index. *)
Theorem animateAttack_consumes_slot (env : Env) (W : World) d evs :
  liveData W = Some d -> attacks d = Some evs -> evs <> [] ->
  exists e W',
    nth_error evs (attackIndex W mod List.length evs) = Some e /\
    animateAttack env W = Normal W' /\
    attackIndex W' = S (attackIndex W) /\
    nextAttack W'
    = nth_error evs (S (attackIndex W) mod List.length evs) /\
    ((1 < List.length evs)%nat ->
     (attackIndex W' mod List.length evs
      <> attackIndex W mod List.length evs)%nat) /\
    (resolvable e = false ->
     W' = set_attackIndex (S (attackIndex W)) W /\
     attackOverlay W' = attackOverlay W /\
     animations W' = animations W).
Proof.
  intros Hd Ha Hne.
  destruct (nextAttack_some W d evs Hd Ha Hne) as [e Hnext].
  destruct (animateAttack_index env W e Hnext) as [W' [Hrun [Hidx Hlive]]].
  exists e, W'.
  split.
  { unfold nextAttack in Hnext. rewrite Hd, Ha in Hnext. exact Hnext. }
  split; [exact Hrun|]. split; [exact Hidx|].
  split.
  { unfold nextAttack. rewrite Hlive, Hd, Ha, Hidx. reflexivity. }
  split.
  { intro Hlen. rewrite Hidx. apply succ_mod_neq. exact Hlen. }
  intro Hres.
  rewrite (animateAttack_dropped env W e Hnext Hres) in Hrun.
  inversion Hrun; subst W'. repeat split; reflexivity.
Qed.

Lemma animateAttack_consumes_slot_witness :
  exists e W',
    nth_error attack_list (1 mod List.length attack_list) = Some e /\
    animateAttack env_0 (attack_world 1) = Normal W' /\
    attackIndex W' = 2%nat /\
    nextAttack W' = nth_error attack_list (2 mod List.length attack_list) /\
    ((1 < List.length attack_list)%nat ->
     (attackIndex W' mod List.length attack_list
      <> 1 mod List.length attack_list)%nat) /\
    (resolvable e = false ->
     W' = set_attackIndex 2 (attack_world 1) /\
     attackOverlay W' = attackOverlay (attack_world 1) /\
     animations W' = animations (attack_world 1)).
Proof.
  apply (animateAttack_consumes_slot env_0 (attack_world 1)
           (mkSnapshot None (Some attack_list)) attack_list).
  - reflexivity.
  - reflexivity.
  - discriminate.
Defined.

(** ** Info card: contributions *)









(** * Further properties of the code *)

(** ** Severity and tile classes are monotone *)

Lemma Qdiv_le_mono (a b m : Q) : 0 < m -> a <= b -> a / m <= b / m.
Proof.
  intros Hm Hab. unfold Qdiv. apply Qmult_le_compat_r; [exact Hab|].
  apply Qinv_le_0_compat. lra.
Qed.

(** X1.  With max > 0, raising the value never lowers the severity of a
    factor that is not reversed, and never raises the severity of a
    reversed one. *)
Theorem getSeverity_monotone (val1 val2 max : Q) :
  0 < max -> val1 <= val2 ->
  (severity_rank (getSeverity val1 max false)
   <= severity_rank (getSeverity val2 max false))%nat /\
  (severity_rank (getSeverity val2 max true)
   <= severity_rank (getSeverity val1 max true))%nat.
Proof.
  intros Hm Hv. pose proof (Qdiv_le_mono val1 val2 max Hm Hv) as Hn.
  unfold getSeverity. cbv zeta. split.
  - qcases; simpl; try lia; exfalso; lra.
  - qcases; simpl; try lia; exfalso; lra.
Qed.

Lemma getSeverity_monotone_witness :
  (severity_rank (getSeverity 30 100 false)
   <= severity_rank (getSeverity 80 100 false))%nat /\
  (severity_rank (getSeverity 80 100 true)
   <= severity_rank (getSeverity 30 100 true))%nat.
Proof.
  apply (getSeverity_monotone 30 80 100); reflexivity || discriminate.
Defined.

(** X2.  A heavier factor never gets a smaller tile, and a factor without
    a weight gets the smallest one. *)
Theorem getTileClass_monotone (w1 w2 : Q) :
  w1 <= w2 ->
  (tile_rank (getTileClass None) <= tile_rank (getTileClass (Some w1)))%nat /\
  (tile_rank (getTileClass (Some w1))
   <= tile_rank (getTileClass (Some w2)))%nat.
Proof.
  intro Hw. unfold getTileClass. split.
  - simpl. lia.
  - qcases; simpl; try lia; exfalso; lra.
Qed.

Lemma getTileClass_monotone_witness :
  (tile_rank (getTileClass None)
   <= tile_rank (getTileClass (Some 5%Q)))%nat /\
  (tile_rank (getTileClass (Some 5%Q))
   <= tile_rank (getTileClass (Some 15%Q)))%nat.
Proof.
  apply (getTileClass_monotone 5 15). discriminate.
Defined.

(** ** The score: range, order of the factors, undefined values *)



Lemma normalized_unit (v m : Q) (rev : bool) :
  0 < m -> 0 <= v <= m -> 0 <= normalized v m rev <= 1.
Proof.
  intros Hm [H0 H1]. unfold normalized.
  assert (A : 0 <= v / m) by (apply Qle_shift_div_l; lra).
  assert (B : v / m <= 1) by (apply Qle_shift_div_r; lra).
  destruct rev; split; lra.
Qed.




(** X5.  A factor whose value is undefined is left out of the score, not
    counted as zero: the score of a mapping is the score of its factors
    that have a value. *)
Theorem localScore_skips_undefined (cf : Factors) :
  localScore cf = localScore (filter (fun kf => has_value (snd kf)) cf).
Proof.
  unfold localScore.
  assert (E : forall acc,
             fold_left score_step (map snd cf) acc
             = fold_left score_step
                 (map snd (filter (fun kf => has_value (snd kf)) cf)) acc).
  { induction cf as [|[k f] rest IH]; intro acc; simpl.
    - reflexivity.
    - unfold has_value at 1. simpl.
      destruct (f_value f) as [v|] eqn:Ev; simpl.
      + apply IH.
      + rewrite <- IH. destruct acc as [t w]. unfold score_step at 2.
        rewrite Ev. reflexivity. }
  rewrite E. reflexivity.
Qed.

(** ** Tiles: filtered, sorted by weight, stable *)

Lemma insert_by_weight_Permutation (x : string * Factor) (l : Factors) :
  Permutation (insert_by_weight x l) (x :: l).
Proof.
  induction l as [|y rest IH]; simpl.
  - apply Permutation_refl.
  - destruct (Qle_bool (weight_or_0 (snd y)) (weight_or_0 (snd x))).
    + apply Permutation_refl.
    + eapply perm_trans; [apply perm_skip; exact IH|]. apply perm_swap.
Qed.

Lemma sort_by_weight_Permutation (l : Factors) :
  Permutation (sort_by_weight l) l.
Proof.
  induction l as [|x rest IH]; simpl.
  - constructor.
  - eapply perm_trans; [apply insert_by_weight_Permutation|].
    apply perm_skip. exact IH.
Qed.

Lemma insert_by_weight_sorted (x : string * Factor) (l : Factors) :
  StronglySorted not_heavier l ->
  StronglySorted not_heavier (insert_by_weight x l).
Proof.
  induction 1 as [|y rest Hs IH Hall]; simpl.
  - constructor; constructor.
  - destruct (Qle_bool (weight_or_0 (snd y)) (weight_or_0 (snd x))) eqn:E.
    + apply Qle_bool_iff in E. constructor.
      * constructor; assumption.
      * constructor; [exact E|].
        eapply Forall_impl; [|exact Hall].
        intros z Hz. unfold not_heavier in *. lra.
    + apply Qle_bool_false in E. constructor; [exact IH|].
      eapply Permutation_Forall;
        [apply Permutation_sym, insert_by_weight_Permutation|].
      constructor; [unfold not_heavier; lra | exact Hall].
Qed.

Lemma sort_by_weight_sorted (l : Factors) :
  StronglySorted not_heavier (sort_by_weight l).
Proof.
  induction l as [|x rest IH]; simpl.
  - constructor.
  - apply insert_by_weight_sorted. exact IH.
Qed.

Lemma tile_of_class (kf : string * Factor) :
  t_class (tile_of kf) = getTileClass (f_weight (snd kf)).
Proof. destruct kf as [k f]. simpl. destruct (f_value f); reflexivity. Qed.

Lemma not_heavier_not_larger (a b : string * Factor) :
  not_heavier a b -> not_larger (tile_of a) (tile_of b).
Proof.
  unfold not_heavier, not_larger. rewrite !tile_of_class.
  unfold weight_or_0, getTileClass.
  destruct (f_weight (snd a)) as [wa|], (f_weight (snd b)) as [wb|];
    intro H; qcases; simpl; try lia; exfalso; lra.
Qed.

Lemma StronglySorted_map {A B : Type} (R : A -> A -> Prop)
  (R' : B -> B -> Prop) (g : A -> B) (l : list A) :
  (forall a b, R a b -> R' (g a) (g b)) ->
  StronglySorted R l -> StronglySorted R' (map g l).
Proof.
  intros Hg. induction 1 as [|x rest Hs IH Hall]; simpl; constructor.
  - exact IH.
  - apply Forall_map. eapply Forall_impl; [|exact Hall].
    intros b Hb. apply Hg. exact Hb.
Qed.

Lemma tile_of_key (kf : string * Factor) : t_key (tile_of kf) = fst kf.
Proof. destruct kf as [k f]. simpl. destruct (f_value f); reflexivity. Qed.

(** X6.  On a page with a tile grid, [generateTiles] shows the tiles of
    exactly the factors that have a value, each once, ordered by weight
    from heavy to light (a missing weight counting as 0), so that no tile
    is larger than a tile before it. *)
Theorem generateTiles_sorted (cf : Factors) (grid : list Tile) :
  exists shown : Factors,
    generateTiles cf (Some grid) = Some (map tile_of shown) /\
    Permutation shown (filter (fun kf => has_value (snd kf)) cf) /\
    map t_key (map tile_of shown) = keys shown /\
    StronglySorted not_heavier shown /\
    StronglySorted not_larger (map tile_of shown).
Proof.
  exists (sort_by_weight (filter (fun kf => has_value (snd kf)) cf)).
  split; [reflexivity|].
  split; [apply sort_by_weight_Permutation|].
  split.
  { rewrite map_map. unfold keys. apply map_ext. exact tile_of_key. }
  split; [apply sort_by_weight_sorted|].
  apply (StronglySorted_map not_heavier not_larger tile_of).
  - exact not_heavier_not_larger.
  - apply sort_by_weight_sorted.
Qed.

Lemma of_weight_insert (w : Q) (x : string * Factor) (l : Factors) :
  of_weight w (insert_by_weight x l) = of_weight w (x :: l).
Proof.
  unfold of_weight. induction l as [|y rest IH]; simpl.
  - reflexivity.
  - destruct (Qle_bool (weight_or_0 (snd y)) (weight_or_0 (snd x))) eqn:E.
    + reflexivity.
    + apply Qle_bool_false in E. simpl. simpl in IH. rewrite IH.
      destruct (Qeq_bool (weight_or_0 (snd x)) w) eqn:Ex; [|reflexivity].
      apply Qeq_bool_iff in Ex.
      assert (Ey : Qeq_bool (weight_or_0 (snd y)) w = false).
      { destruct (Qeq_bool (weight_or_0 (snd y)) w) eqn:Ey; [|reflexivity].
        apply Qeq_bool_iff in Ey. exfalso. lra. }
      rewrite Ey. reflexivity.
Qed.

(** X7.  The sort of the tiles is stable: factors of the same weight stay
    in the order in which the mapping stores them. *)
Theorem sort_by_weight_stable (w : Q) (l : Factors) :
  of_weight w (sort_by_weight l) = of_weight w l.
Proof.
  induction l as [|x rest IH]; simpl.
  - reflexivity.
  - rewrite of_weight_insert. unfold of_weight in *. simpl.
    rewrite IH. reflexivity.
Qed.

(** ** Number formatting *)

Lemma Qfloor_unique (x : Q) (n : Z) :
  inject_Z n <= x -> x < inject_Z (n + 1) -> Qfloor x = n.
Proof.
  intros Hlo Hhi.
  assert (A : (n <= Qfloor x)%Z).
  { rewrite <- (Qfloor_Z n). apply Qfloor_resp_le. exact Hlo. }
  assert (B : (Qfloor x < n + 1)%Z).
  { rewrite Zlt_Qlt. eapply Qle_lt_trans; [apply Qfloor_le|exact Hhi]. }
  lia.
Qed.

Lemma inject_Z_le (a b : Z) : (a <= b)%Z -> inject_Z a <= inject_Z b.
Proof. intro H. rewrite <- Zle_Qle. exact H. Qed.

Lemma inject_Z_lt (a b : Z) : (a < b)%Z -> inject_Z a < inject_Z b.
Proof. intro H. rewrite <- Zlt_Qlt. exact H. Qed.

(** X8.  A whole number from 0 to 999 is shown by [fmt] as its plain
    decimal numeral, without decimals and without a unit letter. *)
Theorem fmt_whole_below_1000 (n : Z) :
  (0 <= n < 1000)%Z ->
  fmt (inject_Z n) = NilZero.string_of_uint (N.to_uint (Z.to_N n)).
Proof.
  intros [H0 H1]. unfold fmt.
  pose proof (inject_Z_le 0 n H0) as Q0.
  pose proof (inject_Z_lt n 1000 H1) as Q1.
  change (inject_Z 0) with 0 in Q0. change (inject_Z 1000) with 1000 in Q1.
  assert (E1 : Qgeb (inject_Z n) 1000000 = false)
    by (apply Qgeb_false; lra).
  assert (E2 : Qgeb (inject_Z n) 1000 = false) by (apply Qgeb_false; lra).
  rewrite E1, E2. unfold is_whole. rewrite Qfloor_Z.
  assert (E3 : Qeq_bool (inject_Z n) (inject_Z n) = true)
    by (apply Qeq_bool_iff; reflexivity).
  rewrite E3. unfold toFixed0.
  assert (E4 : Qltb (inject_Z n) 0 = false) by (apply Qltb_false; lra).
  rewrite E4.
  rewrite (Qfloor_unique (inject_Z n + (1 # 2)) n).
  - reflexivity.
  - lra.
  - rewrite inject_Z_plus. change (inject_Z 1) with 1. lra.
Qed.

Lemma fmt_whole_below_1000_witness :
  fmt (inject_Z 42) = NilZero.string_of_uint (N.to_uint (Z.to_N 42)).
Proof.
  apply (fmt_whole_below_1000 42). lia.
Defined.

(** X9.  Just below a unit boundary [fmt] rounds up without changing the
    unit: a value from 999.95 up to but not including 1000 is shown as
    1000.0, not as 1.0K, and a value from 999950 up to but not including
    1000000 is shown as 1000.0K, not as 1.0M. *)
Theorem fmt_rounds_past_unit (v : Q) :
  ((99995 # 100) <= v -> v < 1000 -> fmt v = "1000.0"%string) /\
  (999950 <= v -> v < 1000000 -> fmt v = "1000.0K"%string).
Proof.
  split; intros Hlo Hhi; unfold fmt.
  - assert (E1 : Qgeb v 1000000 = false) by (apply Qgeb_false; lra).
    assert (E2 : Qgeb v 1000 = false) by (apply Qgeb_false; lra).
    rewrite E1, E2. unfold is_whole.
    assert (F : Qfloor v = 999%Z).
    { apply Qfloor_unique.
      - change (inject_Z 999) with 999. lra.
      - change (inject_Z (999 + 1)) with 1000. exact Hhi. }
    rewrite F.
    assert (E3 : Qeq_bool (inject_Z 999) v = false).
    { destruct (Qeq_bool (inject_Z 999) v) eqn:E; [|reflexivity].
      apply Qeq_bool_iff in E. change (inject_Z 999) with 999 in E.
      exfalso. lra. }
    rewrite E3. unfold toFixed1.
    assert (E4 : Qltb v 0 = false) by (apply Qltb_false; lra).
    rewrite E4. unfold tenths.
    rewrite (Qfloor_unique (v * 10 + (1 # 2)) 10000).
    + reflexivity.
    + change (inject_Z 10000) with 10000. lra.
    + change (inject_Z (10000 + 1)) with 10001. lra.
  - assert (E1 : Qgeb v 1000000 = false) by (apply Qgeb_false; lra).
    assert (E2 : Qgeb v 1000 = true) by (apply Qgeb_true; lra).
    rewrite E1, E2. unfold toFixed1.
    assert (D : v / 1000 == v * (1 # 1000)) by (unfold Qdiv; reflexivity).
    assert (E4 : Qltb (v / 1000) 0 = false)
      by (apply Qltb_false; rewrite D; lra).
    rewrite E4. unfold tenths.
    rewrite (Qfloor_unique (v / 1000 * 10 + (1 # 2)) 10000).
    + reflexivity.
    + change (inject_Z 10000) with 10000. rewrite D. lra.
    + change (inject_Z (10000 + 1)) with 10001. rewrite D. lra.
Qed.

Lemma fmt_rounds_past_unit_witness :
  fmt (99997 # 100) = "1000.0"%string /\ fmt 999960 = "1000.0K"%string.
Proof.
  split.
  - apply (proj1 (fmt_rounds_past_unit (99997 # 100))); reflexivity || discriminate.
  - apply (proj2 (fmt_rounds_past_unit 999960)); reflexivity || discriminate.
Defined.

(** ** Objects: keys stay distinct *)

Lemma obj_get_None {A : Type} (o : list (string * A)) k :
  ~ In k (keys o) -> obj_get o k = None.
Proof.
  induction o as [|[k' a'] rest IH]; simpl; intro H.
  - reflexivity.
  - destruct (String.eqb k' k) eqn:E.
    + apply String.eqb_eq in E. tauto.
    + apply IH. tauto.
Qed.

Lemma obj_get_Some_In {A : Type} (o : list (string * A)) k a :
  obj_get o k = Some a -> In k (keys o).
Proof.
  induction o as [|[k' a'] rest IH]; simpl; intro H.
  - discriminate.
  - destruct (String.eqb k' k) eqn:E.
    + apply String.eqb_eq in E. left. exact E.
    + right. apply IH. exact H.
Qed.

Lemma keys_obj_set_In {A : Type} (o : list (string * A)) k a :
  In k (keys o) -> keys (obj_set k a o) = keys o.
Proof.
  induction o as [|[k' a'] rest IH]; simpl; intro H.
  - contradiction.
  - destruct (String.eqb k' k) eqn:E; simpl.
    + reflexivity.
    + f_equal. apply IH. destruct H as [H | H]; [|exact H].
      apply String.eqb_neq in E. contradiction.
Qed.

Lemma keys_obj_set_new {A : Type} (o : list (string * A)) k a :
  ~ In k (keys o) -> keys (obj_set k a o) = keys o ++ [k].
Proof.
  induction o as [|[k' a'] rest IH]; simpl; intro H.
  - reflexivity.
  - destruct (String.eqb k' k) eqn:E; simpl.
    + apply String.eqb_eq in E. tauto.
    + f_equal. apply IH. tauto.
Qed.

Lemma NoDup_obj_set {A : Type} (o : list (string * A)) k a :
  NoDup (keys o) -> NoDup (keys (obj_set k a o)).
Proof.
  intro H. destruct (in_dec string_dec k (keys o)) as [Hin | Hnot].
  - rewrite keys_obj_set_In by exact Hin. exact H.
  - rewrite keys_obj_set_new by exact Hnot.
    apply (Permutation_NoDup (Permutation_cons_append (keys o) k)).
    constructor; assumption.
Qed.

(** ** Merging a snapshot *)

Lemma merge_live_get (live : list (string * LiveFactor)) :
  NoDup (keys live) ->
  forall (cf : Factors) (key : string),
    obj_get (merge_live live cf) key =
    match obj_get live key with
    | Some l =>
        match merged key l with
        | Some f => Some f
        | None => obj_get cf key
        end
    | None => obj_get cf key
    end.
Proof.
  unfold merge_live.
  induction live as [|[k0 l0] rest IH]; intros Hnd cf key;
    cbn [fold_left obj_get].
  - reflexivity.
  - inversion Hnd as [|? ? Hnotin Hrest]; subst.
    rewrite (IH Hrest). clear IH.
    destruct (String.eqb k0 key) eqn:E.
    + apply String.eqb_eq in E. subst key.
      rewrite (obj_get_None rest k0 Hnotin).
      destruct (merged k0 l0) as [f|]; [|reflexivity].
      apply obj_get_obj_set_eq.
    + assert (G : obj_get
                    match merged k0 l0 with
                    | Some f => obj_set k0 f cf
                    | None => cf
                    end key = obj_get cf key).
      { destruct (merged k0 l0) as [f|]; [|reflexivity].
        apply obj_get_obj_set_neq. apply String.eqb_neq. exact E. }
      rewrite G. reflexivity.
Qed.

(** X10.  Merging a snapshot, key by key.  Under a key that the snapshot
    lists and that has metadata, the factor becomes the snapshot's entry
    over the metadata: value, max and reverse are the entry's, and the
    weight and each text are the entry's when the entry carries one and
    the metadata's otherwise.  Under a listed key that is the name of a
    function every object inherits there is no metadata to start from, and
    the factor is the entry alone, its weight the entry's or missing.
    A listed key that is neither in the metadata nor an inherited name is
    ignored, and a factor the snapshot does not list stays as it is.  (The
    one name left out, [__proto__], is not stored as a factor.) *)
Theorem updateFromLiveData_merges (live : list (string * LiveFactor))
  (headlines : option (list string)) (W : World) (P : Panels) (d : Snapshot) :
  liveData W = Some d ->
  NoDup (keys live) ->
  forall key : string,
    let after := chaosFactors (fst (updateFromLiveData live headlines W P)) in
    (forall l m,
        obj_get live key = Some l -> obj_get factorMeta key = Some m ->
        exists f,
          obj_get after key = Some f /\
          f_value f = l_value l /\ f_max f = l_max l /\
          f_reverse f = l_reverse l /\
          f_weight f = Some (match l_weight l with
                             | Some wt => wt
                             | None => m_weight m
                             end) /\
          f_name f = match l_name l with Some t => t | None => m_name m end /\
          f_icon f = match l_icon l with Some t => t | None => m_icon m end /\
          f_unit f = match l_unit l with Some t => t | None => m_unit m end /\
          f_desc f = match l_desc l with Some t => t | None => m_desc m end) /\
    (forall l,
        obj_get live key = Some l -> obj_get factorMeta key = None ->
        inherited_function key = true ->
        exists f,
          obj_get after key = Some f /\
          f_value f = l_value l /\ f_max f = l_max l /\
          f_reverse f = l_reverse l /\
          f_weight f = l_weight l) /\
    (obj_get live key = None \/
     obj_get factorMeta key = None /\ inherited key = false ->
     obj_get after key = obj_get (chaosFactors W) key).
Proof.
  intros Hd Hnd key after.
  assert (Hafter : after = merge_live live (chaosFactors W)).
  { unfold after, updateFromLiveData. rewrite Hd. simpl fst.
    rewrite updateScore_chaosFactors. reflexivity. }
  rewrite Hafter. clear Hafter after.
  rewrite (merge_live_get live Hnd). unfold merged.
  split; [|split].
  - intros l m El Em. rewrite El, Em. eexists. split; [reflexivity|].
    unfold merge_factor. cbn [f_value f_max f_reverse f_weight f_name f_icon
                              f_unit f_desc option_map spread_text].
    repeat split;
      match goal with
      | |- context [l_weight l] => destruct (l_weight l)
      | |- context [l_name l] => destruct (l_name l)
      | |- context [l_icon l] => destruct (l_icon l)
      | |- context [l_unit l] => destruct (l_unit l)
      | |- context [l_desc l] => destruct (l_desc l)
      | |- _ => idtac
      end; reflexivity.
  - intros l El Em Hi. rewrite El, Em, Hi. eexists. split; [reflexivity|].
    unfold merge_factor. cbn [f_value f_max f_reverse f_weight option_map].
    repeat split. destruct (l_weight l); reflexivity.
  - intros [El | [Em Hi]].
    + rewrite El. reflexivity.
    + unfold inherited_function. rewrite Em, Hi.
      destruct (obj_get live key); reflexivity.
Qed.

Lemma updateFromLiveData_merges_witness :
  (exists f,
     obj_get overridden_factors "solar" = Some f /\ f_weight f = Some (-3)) /\
  (exists f,
     obj_get overridden_factors "toString" = Some f /\ f_weight f = None) /\
  obj_get overridden_factors "unknown"
  = obj_get (chaosFactors (with_chaosIndex 50 world_a)) "unknown".
Proof.
  assert (Hnd : NoDup (keys overriding_live))
    by (repeat constructor; simpl; intuition discriminate).
  pose proof (fun key =>
                updateFromLiveData_merges overriding_live None
                  (with_chaosIndex 50 world_a) (mkPanels None None)
                  (mkSnapshot (Some 50) None) eq_refl Hnd key) as M.
  split; [|split].
  - destruct (proj1 (M "solar"%string) _ _ eq_refl eq_refl)
      as [f [Hf [_ [_ [_ [Hw _]]]]]].
    exists f. split; [exact Hf | exact Hw].
  - destruct (proj1 (proj2 (M "toString"%string)) _ eq_refl eq_refl eq_refl)
      as [f [Hf [_ [_ [_ Hw]]]]].
    exists f. split; [exact Hf | exact Hw].
  - apply (proj2 (proj2 (M "unknown"%string))).
    right. split; reflexivity.
Defined.


Lemma merge_live_NoDup (live : list (string * LiveFactor)) :
  forall cf : Factors, NoDup (keys cf) -> NoDup (keys (merge_live live cf)).
Proof.
  unfold merge_live.
  induction live as [|[k0 l0] rest IH]; intros cf H; cbn [fold_left].
  - exact H.
  - apply IH. destruct (merged k0 l0); [|exact H].
    apply NoDup_obj_set. exact H.
Qed.

Lemma obj_ext {A : Type} (o1 : list (string * A)) :
  forall o2,
    keys o1 = keys o2 -> NoDup (keys o1) ->
    (forall k, obj_get o1 k = obj_get o2 k) -> o1 = o2.
Proof.
  induction o1 as [|[k1 a1] rest1 IH]; intros [|[k2 a2] rest2] Hk Hnd Hget;
    simpl in Hk; try discriminate.
  - reflexivity.
  - inversion Hk; subst k2. inversion Hnd as [|? ? Hnotin Hrest]; subst.
    pose proof (Hget k1) as Hhead. simpl in Hhead.
    rewrite String.eqb_refl in Hhead.
    inversion Hhead; subst a2. f_equal.
    apply IH; [assumption | exact Hrest |].
    intro k. specialize (Hget k). simpl in Hget.
    destruct (String.eqb k1 k) eqn:E; [|exact Hget].
    apply String.eqb_eq in E. subst k.
    rewrite (obj_get_None rest1 k1 Hnotin).
    rewrite (obj_get_None rest2 k1); [reflexivity|].
    match goal with Hk' : keys rest1 = keys rest2 |- _ => rewrite <- Hk' end.
    exact Hnotin.
Qed.



(** ** An invariant of the page *)

Lemma In_keys_obj_set {A : Type} (o : list (string * A)) k k' a :
  In k (keys (obj_set k' a o)) <-> k = k' \/ In k (keys o).
Proof.
  destruct (in_dec string_dec k' (keys o)) as [Hin | Hnot].
  - rewrite keys_obj_set_In by exact Hin. split; [tauto|].
    intros [E | H]; [subst; exact Hin | exact H].
  - rewrite keys_obj_set_new by exact Hnot. rewrite in_app_iff. simpl.
    split; [intros [H | [E | []]]; auto | intros [E | H]; auto].
Qed.

Lemma merge_live_incl (live : list (string * LiveFactor)) :
  forall cf : Factors, incl (keys cf) (keys (merge_live live cf)).
Proof.
  unfold merge_live.
  induction live as [|[k0 l0] rest IH]; intros cf; cbn [fold_left].
  - apply incl_refl.
  - eapply incl_tran; [|apply IH].
    destruct (merged k0 l0); [|apply incl_refl].
    intros k Hk. apply In_keys_obj_set. right. exact Hk.
Qed.

Lemma manipulate_from_keys (rand : nat -> Q) (cf : Factors) :
  forall i, keys (manipulate_from rand i cf) = keys cf.
Proof.
  induction cf as [|[k f] rest IH]; intro i; simpl.
  - reflexivity.
  - destruct (f_value f); simpl; f_equal; apply IH.
Qed.

Lemma overlay_values_keys (sim : list (string * option Q)) (cf : Factors) :
  keys (overlay_values sim cf) = keys cf.
Proof.
  unfold overlay_values, keys. rewrite map_map. apply map_ext.
  intros [k f]. reflexivity.
Qed.

Lemma assign_value_some (k : string) (v : option Q) (cf : Factors) :
  In k (keys cf) ->
  exists cf', assign_value k v cf = Some cf'.
Proof.
  induction cf as [|[k' f] rest IH]; simpl; intro H.
  - contradiction.
  - destruct (String.eqb k' k) eqn:E.
    + eexists. reflexivity.
    + destruct IH as [cf' Hcf'].
      * destruct H as [H | H]; [|exact H].
        apply String.eqb_neq in E. contradiction.
      * rewrite Hcf'. eexists. reflexivity.
Qed.

Lemma assign_value_inherited (k : string) (v : option Q) (cf : Factors) :
  inherited_function k = true ->
  exists cf', assign_value k v cf = Some cf'.
Proof.
  intro Hi. induction cf as [|[k' f] rest IH]; simpl.
  - rewrite Hi. eexists. reflexivity.
  - destruct (String.eqb k' k); [eexists; reflexivity|].
    destruct IH as [cf' Hcf']. rewrite Hcf'. eexists. reflexivity.
Qed.

Lemma assign_value_none (k : string) (v : option Q) (cf : Factors) :
  ~ In k (keys cf) -> inherited_function k = false ->
  assign_value k v cf = None.
Proof.
  intros H Hi. induction cf as [|[k' f] rest IH]; simpl.
  - rewrite Hi. reflexivity.
  - simpl in H. destruct (String.eqb k' k) eqn:E.
    + apply String.eqb_eq in E. tauto.
    + rewrite IH by tauto. reflexivity.
Qed.

Lemma assign_value_keys (k : string) (v : option Q) (cf : Factors) :
  forall cf', assign_value k v cf = Some cf' -> keys cf' = keys cf.
Proof.
  induction cf as [|[k' f] rest IH]; simpl; intros cf' H.
  - destruct (inherited_function k); [|discriminate].
    inversion H; reflexivity.
  - destruct (String.eqb k' k).
    + inversion H; subst cf'. reflexivity.
    + destruct (assign_value k v rest) as [rest'|]; [|discriminate].
      inversion H; subst cf'. simpl. f_equal. exact (IH rest' eq_refl).
Qed.

(** The loop of [applySimulation] over the entries of the overlay. *)
Lemma assign_all_stuck (sim : list (string * option Q)) :
  fold_left
    (fun acc '(k, v) =>
       match acc with
       | Some cf0 => assign_value k v cf0
       | None => None
       end) sim (@None Factors) = None.
Proof.
  induction sim as [|[k v] rest IH]; simpl; [reflexivity | exact IH].
Qed.

Lemma assign_all_keys (sim : list (string * option Q)) :
  forall cf cf',
    fold_left
      (fun acc '(k, v) =>
         match acc with
         | Some cf0 => assign_value k v cf0
         | None => None
         end) sim (Some cf) = Some cf' ->
    keys cf' = keys cf.
Proof.
  induction sim as [|[k v] rest IH]; simpl; intros cf cf' H.
  - inversion H; subst. reflexivity.
  - destruct (assign_value k v cf) as [cf1|] eqn:E1.
    + rewrite (IH cf1 cf' H). exact (assign_value_keys k v cf cf1 E1).
    + rewrite assign_all_stuck in H. discriminate.
Qed.

Lemma assign_all_some (sim : list (string * option Q)) :
  forall cf,
    (forall k, In k (keys sim) ->
               In k (keys cf) \/ inherited_function k = true) ->
    exists cf',
      fold_left
        (fun acc '(k, v) =>
           match acc with
           | Some cf0 => assign_value k v cf0
           | None => None
           end) sim (Some cf) = Some cf'.
Proof.
  induction sim as [|[k v] rest IH]; simpl; intros cf H.
  - eexists. reflexivity.
  - assert (E : exists cf1, assign_value k v cf = Some cf1).
    { destruct (H k (or_introl eq_refl)) as [Hin | Hi].
      - apply assign_value_some. exact Hin.
      - apply assign_value_inherited. exact Hi. }
    destruct E as [cf1 E1]. rewrite E1. apply IH.
    rewrite (assign_value_keys k v cf cf1 E1).
    intros x Hx. apply H. right. exact Hx.
Qed.

Lemma assign_all_none (sim : list (string * option Q)) :
  forall cf k,
    In k (keys sim) -> ~ In k (keys cf) -> inherited_function k = false ->
    fold_left
      (fun acc '(k, v) =>
         match acc with
         | Some cf0 => assign_value k v cf0
         | None => None
         end) sim (Some cf) = None.
Proof.
  induction sim as [|[k0 v0] rest IH]; simpl; intros cf k Hin Hnot Hi.
  - contradiction.
  - destruct (assign_value k0 v0 cf) as [cf1|] eqn:E1;
      [|apply assign_all_stuck].
    destruct Hin as [E | Hin].
    + subst k0. rewrite (assign_value_none k v0 cf Hnot Hi) in E1.
      discriminate.
    + apply (IH cf1 k Hin); [|exact Hi].
      rewrite (assign_value_keys k0 v0 cf cf1 E1). exact Hnot.
Qed.

Lemma addLog_frame (type message : string) (W : World) :
  chaosFactors (addLog type message W) = chaosFactors W /\
  simulationValues (addLog type message W) = simulationValues W.
Proof. unfold addLog. destruct (logEntries W); split; reflexivity. Qed.

Lemma updateScore_simulationValues (W : World) :
  simulationValues (updateScore W) = simulationValues W.
Proof.
  unfold updateScore.
  destruct (mainScore W); [|reflexivity].
  destruct (live_chaosIndex W); reflexivity.
Qed.

Lemma animateAttack_frame (env : Env) (W W' : World) :
  animateAttack env W = Normal W' ->
  chaosFactors W' = chaosFactors W /\
  simulationValues W' = simulationValues W.
Proof.
  unfold animateAttack. intro H.
  destruct (liveData W) as [d|]; [|inversion H; auto].
  destruct (attacks d) as [[|e0 rest]|]; try (inversion H; auto; fail).
  destruct (nth_error (e0 :: rest) (attackIndex W mod List.length (e0 :: rest)))
    as [attack|]; [|discriminate].
  destruct (lookup_coord (a_from attack)),
           (lookup_coord (a_to attack));
    try (inversion H; auto; fail).
  simpl attackOverlay in H.
  destruct (attackOverlay W); inversion H; auto.
Qed.

Lemma save_values_NoDup (cf : Factors) :
  forall sim : list (string * option Q),
    NoDup (keys sim) ->
    NoDup
      (keys (fold_left (fun sim0 '(k0, f0) => obj_set k0 (f_value f0) sim0)
               cf sim)).
Proof.
  induction cf as [|[k f] rest IH]; simpl; intros sim H.
  - exact H.
  - apply IH. apply NoDup_obj_set. exact H.
Qed.

Lemma save_values_keys (cf : Factors) :
  forall (sim : list (string * option Q)) k,
    In k
      (keys (fold_left (fun sim0 '(k0, f0) => obj_set k0 (f_value f0) sim0)
               cf sim)) ->
    In k (keys sim) \/ In k (keys cf).
Proof.
  induction cf as [|[k0 f0] rest IH]; simpl; intros sim k H.
  - left. exact H.
  - destruct (IH _ _ H) as [H1 | H1]; [|auto].
    apply In_keys_obj_set in H1. destruct H1 as [E | H1]; auto.
Qed.

Lemma step_invariant (W W' : World) :
  page_invariant W -> step W W' -> page_invariant W'.
Proof.
  unfold page_invariant. intros [Hnd [Hsnd Hincl]] Hstep.
  destruct Hstep as
    [d live headlines P W | rand W | W | key value W Hkey | W
    | W W' Happly | env W W' Hattack | type message W].
  - unfold updateFromLiveData. simpl liveData. simpl fst.
    rewrite updateScore_chaosFactors, updateScore_simulationValues.
    simpl chaosFactors. simpl simulationValues.
    repeat split.
    + apply merge_live_NoDup. exact Hnd.
    + exact Hsnd.
    + eapply incl_tran; [exact Hincl | apply merge_live_incl].
  - unfold manipulateData. simpl.
    rewrite manipulate_from_keys. repeat split; assumption.
  - rewrite openSimulationModal_chaosFactors,
      openSimulationModal_simulationValues.
    repeat split; try assumption.
    + apply save_values_NoDup. exact Hsnd.
    + intros k Hk. apply save_values_keys in Hk.
      destruct Hk as [Hk | Hk]; [apply Hincl; exact Hk | exact Hk].
  - unfold sliderInput.
    rewrite updateSimulationScore_restores by exact Hnd.
    unfold updateSimulationScore. simpl simulationValues.
    rewrite updateScore_simulationValues. simpl.
    repeat split; try assumption.
    + apply NoDup_obj_set. exact Hsnd.
    + intros k Hk. apply In_keys_obj_set in Hk.
      destruct Hk as [E | Hk]; [subst; exact Hkey | apply Hincl; exact Hk].
  - rewrite exitSimulation_chaosFactors.
    assert (Es : simulationValues (exitSimulation W) = simulationValues W).
    { unfold exitSimulation, closeSimulationModal.
      rewrite (proj2 (addLog_frame _ _ _)). simpl.
      rewrite updateScore_simulationValues. reflexivity. }
    rewrite Es, overlay_values_keys. repeat split; assumption.
  - unfold applySimulation in Happly.
    match type of Happly with
    | match ?X with _ => _ end = _ => destruct X as [cf'|] eqn:E
    end; [|discriminate].
    inversion Happly; subst W'. clear Happly.
    pose proof (assign_all_keys _ _ _ E) as Hk.
    unfold closeSimulationModal. simpl.
    rewrite (proj1 (addLog_frame _ _ _)), (proj2 (addLog_frame _ _ _)).
    rewrite updateScore_chaosFactors, updateScore_simulationValues. simpl.
    rewrite Hk. repeat split; auto.
  - destruct (animateAttack_frame env W W' Hattack) as [Ec Es].
    rewrite Ec, Es. repeat split; assumption.
  - rewrite (proj1 (addLog_frame _ _ _)), (proj2 (addLog_frame _ _ _)).
    repeat split; assumption.
Qed.

(** X12.  In every state the page reaches from its start, through polls
    of any snapshot, perturbations, opening the modal, slider input,
    leaving or applying a simulation, attacks and log lines, the keys of
    chaosFactors are distinct, the keys of simulationValues are distinct,
    and each key of simulationValues is the key of a factor. *)
Theorem reachable_page_invariant (W : World) :
  reachable W -> page_invariant W.
Proof.
  induction 1 as [W Hc Hs | W W' _ IH Hstep].
  - unfold page_invariant. rewrite Hc, Hs. simpl.
    repeat split; try constructor. intros k [].
  - exact (step_invariant W W' IH Hstep).
Qed.

Lemma reachable_page_invariant_witness :
  page_invariant
    (openSimulationModal (manipulateData (fun _ => 0) polled_world)).
Proof.
  apply (reachable_page_invariant
           (openSimulationModal (manipulateData (fun _ => 0) polled_world))).
  apply (reach_step (manipulateData (fun _ => 0) polled_world));
    [|apply step_open].
  apply (reach_step polled_world); [|apply step_perturb].
  apply (reach_step empty_world polled_world).
  - apply reach_start; reflexivity.
  - apply step_poll.
Defined.

(** ** Committing the overlay *)

Lemma assign_value_get (k : string) (v : option Q) (cf : Factors) :
  forall cf',
    assign_value k v cf = Some cf' ->
    forall k',
      obj_get cf' k' =
      if String.eqb k k' then option_map (set_value v) (obj_get cf k')
      else obj_get cf k'.
Proof.
  induction cf as [|[k0 f0] rest IH]; simpl; intros cf' H k'.
  - destruct (inherited_function k); [|discriminate].
    inversion H; subst cf'. destruct (String.eqb k k'); reflexivity.
  - destruct (String.eqb k0 k) eqn:E0.
    + apply String.eqb_eq in E0. subst k0. inversion H; subst cf'. simpl.
      destruct (String.eqb k k'); reflexivity.
    + destruct (assign_value k v rest) as [rest'|]; [|discriminate].
      inversion H; subst cf'. simpl.
      destruct (String.eqb k0 k') eqn:E1.
      * apply String.eqb_eq in E1. subst k'.
        rewrite String.eqb_sym, E0. reflexivity.
      * apply IH. reflexivity.
Qed.

Lemma assign_all_get (sim : list (string * option Q)) :
  NoDup (keys sim) ->
  forall cf cf',
    fold_left
      (fun acc '(k, v) =>
         match acc with
         | Some cf0 => assign_value k v cf0
         | None => None
         end) sim (Some cf) = Some cf' ->
    forall k,
      obj_get cf' k =
      match obj_get sim k with
      | Some v => option_map (set_value v) (obj_get cf k)
      | None => obj_get cf k
      end.
Proof.
  induction sim as [|[k0 v0] rest IH]; simpl; intros Hnd cf cf' H k.
  - inversion H; subst. reflexivity.
  - inversion Hnd as [|? ? Hnotin Hrest]; subst.
    destruct (assign_value k0 v0 cf) as [cf1|] eqn:E1.
    + rewrite (IH Hrest cf1 cf' H k).
      rewrite (assign_value_get k0 v0 cf cf1 E1 k).
      destruct (String.eqb k0 k) eqn:E.
      * apply String.eqb_eq in E. subst k.
        rewrite (obj_get_None rest k0 Hnotin). reflexivity.
      * reflexivity.
    + exfalso. clear -H. induction rest as [|[k' v'] rest IH]; simpl in H.
      * discriminate.
      * apply IH. exact H.
Qed.

(** X13.  [applySimulation] runs to its end when every key of
    simulationValues is the key of a factor or the name of a function
    every object inherits, for then each [chaosFactors[k]] is an object
    the value can be assigned to; with a key that is neither the key of a
    factor nor an inherited name, [chaosFactors[k]] is undefined and the
    assignment throws. *)
Theorem applySimulation_completes (W : World) :
  ((forall k, In k (keys (simulationValues W)) ->
              In k (keys (chaosFactors W)) \/ inherited_function k = true) ->
   applySimulation W <> None) /\
  (forall k, In k (keys (simulationValues W)) ->
             ~ In k (keys (chaosFactors W)) -> inherited k = false ->
             applySimulation W = None).
Proof.
  unfold applySimulation. split.
  - intro Hi. destruct (assign_all_some _ _ Hi) as [cf' E'].
    match goal with
    | |- match ?X with _ => _ end <> _ => destruct X as [cf1|] eqn:E
    end; [discriminate|].
    exfalso. assert (F : Some cf' = None) by (rewrite <- E'; exact E).
    discriminate.
  - intros k Hin Hnot Hi.
    assert (Hf : inherited_function k = false)
      by (unfold inherited_function; rewrite Hi; reflexivity).
    match goal with
    | |- match ?X with _ => _ end = _ => destruct X as [cf1|] eqn:E
    end; [|reflexivity].
    exfalso.
    assert (F : Some cf1 = None).
    { rewrite <- E. apply (assign_all_none _ _ k Hin Hnot Hf). }
    discriminate.
Qed.

Lemma applySimulation_completes_witness :
  applySimulation sim_world <> None /\
  applySimulation (set_simulationValues [("zz", Some 1)]%string sim_world)
  = None.
Proof.
  split.
  - apply (proj1 (applySimulation_completes sim_world)).
    intros k Hk. left. exact Hk.
  - apply (proj2 (applySimulation_completes
                    (set_simulationValues [("zz", Some 1)]%string sim_world))
             "zz"%string).
    + left. reflexivity.
    + simpl. intuition discriminate.
    + reflexivity.
Defined.

(** X14.  When [applySimulation] completes, every factor that the overlay
    has a key for holds the overlay's value and every other factor keeps
    its value; the modal is closed, but the page stays in simulation mode
    and its timers stay as they were. *)
Theorem applySimulation_commits_overlay (W W' : World) :
  NoDup (keys (simulationValues W)) ->
  applySimulation W = Some W' ->
  (forall k,
     value_of W' k =
     match obj_get (chaosFactors W) k, obj_get (simulationValues W) k with
     | Some f, Some v => v
     | Some f, None => f_value f
     | None, _ => None
     end) /\
  simulateModalActive W' = false /\
  isSimulationMode W' = isSimulationMode W /\
  realTimeIntervals W' = realTimeIntervals W.
Proof.
  intros Hnd H. unfold applySimulation in H.
  match type of H with
  | match ?X with _ => _ end = _ => destruct X as [cf'|] eqn:E
  end; [|discriminate].
  inversion H; subst W'. clear H.
  assert (Hc : chaosFactors
                 (closeSimulationModal
                    (addLog "success" "Simulation values applied"
                       (updateScore (set_chaosFactors cf' W)))) = cf').
  { unfold closeSimulationModal. simpl.
    rewrite (proj1 (addLog_frame _ _ _)), updateScore_chaosFactors.
    reflexivity. }
  split.
  - intro k. unfold value_of. rewrite Hc.
    rewrite (assign_all_get _ Hnd _ _ E k).
    destruct (obj_get (chaosFactors W) k) as [f|],
             (obj_get (simulationValues W) k) as [v|]; reflexivity.
  - unfold closeSimulationModal, addLog, updateScore. simpl.
    destruct (mainScore W); [destruct (live_chaosIndex _)|]; simpl;
      destruct (logEntries W); auto.
Qed.

Lemma applySimulation_commits_overlay_witness :
  simulateModalActive
    (closeSimulationModal
       (addLog "success" "Simulation values applied"
          (updateScore
             (set_chaosFactors [("a", set_value (Some 0) factor_a)]%string
                sim_world)))) = false.
Proof.
  apply (applySimulation_commits_overlay sim_world
           (closeSimulationModal
              (addLog "success" "Simulation values applied"
                 (updateScore
                    (set_chaosFactors
                       [("a", set_value (Some 0) factor_a)]%string
                       sim_world))))).
  - repeat constructor; simpl; intuition discriminate.
  - reflexivity.
Defined.

Lemma obj_get_overlay (sim : list (string * option Q)) (cf : Factors) k :
  obj_get (overlay_values sim cf) k
  = option_map (set_value (sim_get sim k)) (obj_get cf k).
Proof.
  unfold overlay_values. induction cf as [|[k0 f0] rest IH]; simpl.
  - reflexivity.
  - destruct (String.eqb k0 k) eqn:E; [|exact IH].
    apply String.eqb_eq in E. subst k0. reflexivity.
Qed.

(** X15.  When the overlay has a key for every factor, as it has once the
    modal was opened, leaving the simulation writes the same factors as
    applying it. *)
Theorem exitSimulation_like_applySimulation (W W' : World) :
  NoDup (keys (chaosFactors W)) ->
  NoDup (keys (simulationValues W)) ->
  incl (keys (chaosFactors W)) (keys (simulationValues W)) ->
  applySimulation W = Some W' ->
  chaosFactors (exitSimulation W) = chaosFactors W'.
Proof.
  intros Hc Hs Hincl H. rewrite exitSimulation_chaosFactors.
  unfold applySimulation in H.
  match type of H with
  | match ?X with _ => _ end = _ => destruct X as [cf'|] eqn:E
  end; [|discriminate].
  inversion H; subst W'. clear H.
  unfold closeSimulationModal. simpl.
  rewrite (proj1 (addLog_frame _ _ _)), updateScore_chaosFactors. simpl.
  pose proof (assign_all_keys _ _ _ E) as Hk.
  apply obj_ext.
  - rewrite overlay_values_keys. symmetry. exact Hk.
  - rewrite overlay_values_keys. exact Hc.
  - intro k. rewrite obj_get_overlay, (assign_all_get _ Hs _ _ E k).
    unfold sim_get.
    destruct (obj_get (chaosFactors W) k) as [f|] eqn:Ef.
    + destruct (obj_get (simulationValues W) k) as [v|] eqn:Ev;
        [reflexivity|].
      exfalso. apply obj_get_Some_In in Ef. apply Hincl in Ef.
      unfold keys in Ef. apply in_map_iff in Ef.
      destruct Ef as [[k' v'] [Ek Hin]]. simpl in Ek. subst k'.
      rewrite (obj_get_In _ k v' Hs Hin) in Ev. discriminate.
    + destruct (obj_get (simulationValues W) k); reflexivity.
Qed.

Lemma exitSimulation_like_applySimulation_witness :
  chaosFactors (exitSimulation sim_world)
  = chaosFactors
      (closeSimulationModal
         (addLog "success" "Simulation values applied"
            (updateScore
               (set_chaosFactors [("a", set_value (Some 0) factor_a)]%string
                  sim_world)))).
Proof.
  apply (exitSimulation_like_applySimulation sim_world).
  - repeat constructor; simpl; intuition discriminate.
  - repeat constructor; simpl; intuition discriminate.
  - intros k Hk. exact Hk.
  - reflexivity.
Defined.

(** ** A simulation session *)

Lemma updateSimulationScore_frame (W : World) :
  simulationValues (updateSimulationScore W) = simulationValues W /\
  realTimeIntervals (updateSimulationScore W) = realTimeIntervals W /\
  isSimulationMode (updateSimulationScore W) = isSimulationMode W /\
  simulateModalActive (updateSimulationScore W) = simulateModalActive W.
Proof.
  unfold updateSimulationScore, updateScore. simpl.
  destruct (mainScore W); [destruct (live_chaosIndex _)|]; simpl; auto.
Qed.

Lemma sliderInput_simulationValues (key : string) (value : Q) (W : World) :
  simulationValues (sliderInput key value W)
  = obj_set key (Some value) (simulationValues W).
Proof.
  unfold sliderInput.
  rewrite (proj1 (updateSimulationScore_frame _)). reflexivity.
Qed.

Lemma sliderInput_chaosFactors (key : string) (value : Q) (W : World) :
  NoDup (keys (chaosFactors W)) ->
  chaosFactors (sliderInput key value W) = chaosFactors W.
Proof.
  intro H. unfold sliderInput.
  rewrite updateSimulationScore_restores; [reflexivity | exact H].
Qed.

Lemma sliderInputs_snoc (moves : list (string * Q)) key value (W : World) :
  sliderInputs (moves ++ [(key, value)]) W
  = sliderInput key value (sliderInputs moves W).
Proof. unfold sliderInputs. rewrite fold_left_app. reflexivity. Qed.

Lemma sliderInputs_chaosFactors (moves : list (string * Q)) (W : World) :
  NoDup (keys (chaosFactors W)) ->
  chaosFactors (sliderInputs moves W) = chaosFactors W.
Proof.
  intro H. induction moves as [|[key value] rest IH] using rev_ind.
  - reflexivity.
  - rewrite sliderInputs_snoc, sliderInput_chaosFactors; [exact IH|].
    rewrite IH. exact H.
Qed.

Lemma sliderInputs_get (moves : list (string * Q)) (W : World) k :
  obj_get (simulationValues (sliderInputs moves W)) k =
  match last_move moves k with
  | Some v => Some (Some v)
  | None => obj_get (simulationValues W) k
  end.
Proof.
  unfold last_move.
  induction moves as [|[key value] rest IH] using rev_ind.
  - reflexivity.
  - rewrite sliderInputs_snoc, sliderInput_simulationValues.
    rewrite rev_app_distr. simpl.
    destruct (String.eqb key k) eqn:E.
    + apply String.eqb_eq in E. subst k. apply obj_get_obj_set_eq.
    + rewrite obj_get_obj_set_neq by (apply String.eqb_neq; exact E).
      exact IH.
Qed.

Lemma sliderInputs_frame (moves : list (string * Q)) (W : World) :
  realTimeIntervals (sliderInputs moves W) = realTimeIntervals W.
Proof.
  induction moves as [|[key value] rest IH] using rev_ind.
  - reflexivity.
  - rewrite sliderInputs_snoc. unfold sliderInput.
    rewrite (proj1 (proj2 (updateSimulationScore_frame _))). exact IH.
Qed.

(** X16.  Moving sliders never changes a factor, however many moves
    there are; a move is recorded in simulationValues, where the key of the
    slider holds the value it was moved to last. *)
Theorem sliderInputs_only_overlay (moves : list (string * Q)) (W : World) :
  NoDup (keys (chaosFactors W)) ->
  chaosFactors (sliderInputs moves W) = chaosFactors W /\
  forall key value,
    last_move moves key = Some value ->
    sim_get (simulationValues (sliderInputs moves W)) key = Some value.
Proof.
  intro H. split.
  - apply sliderInputs_chaosFactors. exact H.
  - intros key value Hlast. unfold sim_get.
    rewrite sliderInputs_get, Hlast. reflexivity.
Qed.

Lemma sliderInputs_only_overlay_witness :
  chaosFactors
    (sliderInputs [("a", 10); ("a", 0)]%string (openSimulationModal world_a))
  = chaosFactors (openSimulationModal world_a).
Proof.
  apply (sliderInputs_only_overlay [("a", 10); ("a", 0)]%string
           (openSimulationModal world_a)).
  repeat constructor; simpl; intuition discriminate.
Defined.

Lemma exitSimulation_frame (W : World) :
  isSimulationMode (exitSimulation W) = false /\
  simulateModalActive (exitSimulation W) = false /\
  realTimeIntervals (exitSimulation W) = realTimeIntervals W ++ resumed_timers.
Proof.
  unfold exitSimulation, closeSimulationModal, addLog, updateScore. simpl.
  destruct (mainScore W); [destruct (live_chaosIndex _)|]; simpl;
    destruct (logEntries W); auto.
Qed.

Lemma openSimulationModal_frame (W : World) :
  isSimulationMode (openSimulationModal W) = true /\
  simulateModalActive (openSimulationModal W) = true /\
  realTimeIntervals (openSimulationModal W) = [].
Proof.
  unfold openSimulationModal, addLog. simpl.
  destruct (logEntries W); auto.
Qed.

(** X17.  A whole session: the modal is opened, sliders are moved, the
    simulation is left.  Afterwards a factor whose slider was moved holds
    the value the slider was moved to last and every other factor holds
    the value it had when the modal was opened; the page is back in live
    mode with the modal closed and exactly the four resumed timers. *)
Theorem simulation_session (moves : list (string * Q)) (W : World) :
  NoDup (keys (chaosFactors W)) ->
  let W' := exitSimulation (sliderInputs moves (openSimulationModal W)) in
  (forall k f,
     In (k, f) (chaosFactors W) ->
     value_of W' k =
     match last_move moves k with
     | Some v => Some v
     | None => f_value f
     end) /\
  isSimulationMode W' = false /\
  simulateModalActive W' = false /\
  realTimeIntervals W' = resumed_timers.
Proof.
  intros Hnd W'. unfold W'. split.
  - intros k f Hin. unfold value_of.
    rewrite exitSimulation_chaosFactors.
    assert (Hnd' : NoDup (keys (chaosFactors (openSimulationModal W))))
      by (rewrite openSimulationModal_chaosFactors; exact Hnd).
    rewrite (sliderInputs_chaosFactors moves _ Hnd').
    rewrite openSimulationModal_chaosFactors.
    rewrite obj_get_overlay, (obj_get_In _ k f Hnd Hin). simpl.
    unfold sim_get. rewrite sliderInputs_get.
    destruct (last_move moves k) as [v|]; [reflexivity|].
    rewrite openSimulationModal_simulationValues.
    rewrite (save_values_get _ _ k f Hnd Hin). reflexivity.
  - destruct (exitSimulation_frame
                (sliderInputs moves (openSimulationModal W)))
      as [Hm [Ha Ht]].
    rewrite Hm, Ha, Ht, sliderInputs_frame.
    rewrite (proj2 (proj2 (openSimulationModal_frame W))). auto.
Qed.

Lemma simulation_session_witness :
  realTimeIntervals
    (exitSimulation
       (sliderInputs [("a", 0)]%string (openSimulationModal world_a)))
  = resumed_timers.
Proof.
  apply (simulation_session [("a", 0)]%string world_a).
  repeat constructor; simpl; intuition discriminate.
Defined.



(** ** The perturbation moves little *)

Lemma manipulate_from_get_exact (rand : nat -> Q) (cf : Factors) :
  forall i k f,
    obj_get cf k = Some f ->
    exists j,
      obj_get (manipulate_from rand i cf) k =
      Some match f_value f with
           | Some v => perturb (rand j) f v
           | None => f
           end.
Proof.
  induction cf as [|[k0 f0] rest IH]; simpl; intros i k f Hget.
  - discriminate.
  - destruct (f_value f0) as [v0|] eqn:Ev; simpl;
      destruct (String.eqb k0 k) eqn:Ek.
    + inversion Hget; subst f0. exists i. rewrite Ev. reflexivity.
    + apply IH. exact Hget.
    + inversion Hget; subst f0. exists i. rewrite Ev. reflexivity.
    + apply IH. exact Hget.
Qed.

Lemma clamp_near (m v delta bound : Q) :
  0 <= v <= m -> - bound <= delta <= bound ->
  v - bound <= Math_max 0 (Math_min m (v + delta)) <= v + bound.
Proof.
  intros [H0 H1] [D0 D1]. unfold Math_max, Math_min.
  destruct (Qle_bool m (v + delta)) eqn:E1.
  - apply Qle_bool_iff in E1.
    destruct (Qle_bool 0 m) eqn:E2.
    + split; lra.
    + apply Qle_bool_false in E2. split; lra.
  - apply Qle_bool_false in E1.
    destruct (Qle_bool 0 (v + delta)) eqn:E2.
    + split; lra.
    + apply Qle_bool_false in E2. split; lra.
Qed.

(** X19.  One run of the fallback perturbation, with every random number
    in [[0, 1)], moves the value of a factor with max > 0 and a value in
    [[0, max]] by at most one percent of max and leaves its name, weight,
    max and reverse flag alone; a factor without a value is not touched. *)
Theorem manipulateData_small_move (rand : nat -> Q) (W : World)
  (k : string) (f : Factor) :
  (forall i, 0 <= rand i /\ rand i < 1) ->
  obj_get (chaosFactors W) k = Some f ->
  0 < f_max f ->
  (forall v,
     f_value f = Some v -> 0 <= v <= f_max f ->
     exists v',
       obj_get (chaosFactors (manipulateData rand W)) k
       = Some (set_value (Some v') f) /\
       v - f_max f * (1 # 100) <= v' <= v + f_max f * (1 # 100)) /\
  (f_value f = None ->
   obj_get (chaosFactors (manipulateData rand W)) k = Some f).
Proof.
  intros Hrand Hget Hm.
  destruct (manipulate_from_get_exact rand (chaosFactors W) 0%nat k f Hget)
    as [j Hj].
  unfold manipulateData. simpl chaosFactors. split.
  - intros v Ev Hv. rewrite Ev in Hj. unfold perturb in Hj.
    eexists. split; [exact Hj|].
    destruct (Hrand j) as [R0 R1].
    destruct (perturb_delta_bound (rand j) (f_max f) R0 R1 Hm) as [D0 D1].
    apply clamp_near; [exact Hv|]. split; lra.
  - intro Ev. rewrite Ev in Hj. exact Hj.
Qed.

Lemma manipulateData_small_move_witness :
  exists v',
    obj_get (chaosFactors (manipulateData (fun _ => 1 # 4) world_a)) "a"
    = Some (set_value (Some v') factor_a) /\
    80 - f_max factor_a * (1 # 100) <= v' <= 80 + f_max factor_a * (1 # 100).
Proof.
  assert (Hrand : forall i : nat, 0 <= (fun _ : nat => 1 # 4) i /\
                                  (fun _ : nat => 1 # 4) i < 1)
    by (intro i; split; [discriminate | reflexivity]).
  apply (proj1 (manipulateData_small_move (fun _ => 1 # 4) world_a "a"
                  factor_a Hrand eq_refl eq_refl) 80).
  - reflexivity.
  - split; discriminate.
Defined.

(** ** Info card: range of a contribution *)

Lemma weighted_term_nonneg (f : Factor) (v : Q) k :
  Factor_ok f -> Factor_bounded f -> f_value f = Some v ->
  0 <= weighted_term (k, f, v).
Proof.
  intros Hok [Hm Hb] Ev. unfold weighted_term.
  pose proof (normalized_unit v (f_max f) (f_reverse f) Hm (Hb v Ev)) as [N0 _].
  pose proof (weight_or_1_pos f Hok).
  apply Qmult_le_0_compat; lra.
Qed.

Lemma impact_fold_bounds (key : string) (cf : Factors) :
  Factors_ok cf -> Factors_bounded cf ->
  forall t m,
    0 <= m <= t ->
    0 <= snd (fold_left (impact_step key) cf (t, m))
      <= fst (fold_left (impact_step key) cf (t, m)).
Proof.
  unfold Factors_ok, Factors_bounded.
  induction cf as [|[k f] rest IH]; intros Hok Hb t m Hm; simpl.
  - exact Hm.
  - inversion Hok as [|? ? Hf Hok']; inversion Hb as [|? ? Hbf Hb'];
      subst. simpl in Hf, Hbf.
    destruct (f_value f) as [v|] eqn:Ev.
    + pose proof (weighted_term_nonneg f v k Hf Hbf Ev) as Hw.
      unfold weighted_term, normalized in Hw.
      apply (IH Hok' Hb').
      destruct (String.eqb k key); split; lra.
    + apply (IH Hok' Hb'). exact Hm.
Qed.

(** X20.  For factors of the data model, the percentage the info card
    shows for a factor lies between 0 and 100. *)
Theorem impactPercent_range (cf : Factors) (key : string) (p : Q) :
  Factors_ok cf -> Factors_bounded cf ->
  impactPercent key cf = Some p ->
  0 <= p <= 100.
Proof.
  intros Hok Hb H. unfold impactPercent in H.
  destruct (obj_get cf key); [|discriminate].
  assert (Hm : 0 <= 0 <= 0) by (split; lra).
  pose proof (impact_fold_bounds key cf Hok Hb 0 0 Hm) as Hfold.
  destruct (fold_left (impact_step key) cf (0, 0)) as [total mine].
  simpl in Hfold. injection H as <-.
  destruct (Qgtb total 0) eqn:E.
  - apply Qgtb_true in E.
    assert (A : 0 <= mine / total) by (apply Qle_shift_div_l; lra).
    assert (B : mine / total <= 1) by (apply Qle_shift_div_r; lra).
    split; lra.
  - split; lra.
Qed.

Lemma impactPercent_range_witness :
  0 <= impact_of scenario_factors "a" <= 100.
Proof.
  apply (impactPercent_range scenario_factors "a").
  - repeat constructor; simpl; intros wt E; inversion E; subst; discriminate.
  - constructor; [|constructor; [|constructor]];
      (split; [reflexivity|];
       intros v E; inversion E; subst; split; discriminate).
  - reflexivity.
Defined.

(** ** The attack timer over many ticks *)

Lemma add_mod_cycle (i n : nat) : ((i + n) mod n = i mod n)%nat.
Proof.
  destruct n as [|n]; [simpl; lia|].
  rewrite Nat.Div0.add_mod, Nat.Div0.mod_same, Nat.add_0_r.
  apply Nat.Div0.mod_mod.
Qed.

(** X21.  With a non-empty event list, any number of ticks of the attack
    timer runs without throwing and advances the event index by one per
    tick, so the tick after them takes the event that many places further
    round the list; after as many ticks as the list has events the cycle
    is back at the event it started from, and the list is as it was. *)
Theorem animateAttack_ticks_cycle (envs : list Env) :
  forall (W : World) d evs,
    liveData W = Some d -> attacks d = Some evs -> evs <> [] ->
    exists W',
      animateAttack_ticks envs W = Normal W' /\
      attackIndex W' = (attackIndex W + List.length envs)%nat /\
      liveData W' = liveData W /\
      nextAttack W'
      = nth_error evs
          ((attackIndex W + List.length envs) mod List.length evs) /\
      (List.length envs = List.length evs -> nextAttack W' = nextAttack W).
Proof.
  induction envs as [|env rest IH]; intros W d evs Hd Ha Hne; simpl.
  - exists W. rewrite Nat.add_0_r.
    split; [reflexivity|]. split; [reflexivity|]. split; [reflexivity|].
    split.
    + unfold nextAttack. rewrite Hd, Ha. reflexivity.
    + intro Hlen. destruct evs; [contradiction | discriminate].
  - destruct (nextAttack_some W d evs Hd Ha Hne) as [e Hnext].
    destruct (animateAttack_index env W e Hnext) as [W1 [Hrun [Hidx Hlive]]].
    rewrite Hrun.
    destruct (IH W1 d evs) as [W' [Hrun' [Hidx' [Hlive' [Hnext' _]]]]];
      [congruence | exact Ha | exact Hne |].
    exists W'. rewrite Hidx in Hidx', Hnext'.
    replace (S (attackIndex W) + List.length rest)%nat
      with (attackIndex W + S (List.length rest))%nat in Hidx', Hnext' by lia.
    split; [exact Hrun'|]. split; [exact Hidx'|].
    split; [congruence|]. split; [exact Hnext'|].
    intro Hlen. rewrite Hnext', Hlen, add_mod_cycle.
    unfold nextAttack. rewrite Hd, Ha. reflexivity.
Qed.

Lemma animateAttack_ticks_cycle_witness :
  exists W',
    animateAttack_ticks [env_0; env_0; env_0] (attack_world 1) = Normal W' /\
    attackIndex W' = (1 + 3)%nat /\
    liveData W' = liveData (attack_world 1) /\
    nextAttack W'
    = nth_error attack_list ((1 + 3) mod List.length attack_list) /\
    (3%nat = List.length attack_list ->
     nextAttack W' = nextAttack (attack_world 1)).
Proof.
  apply (animateAttack_ticks_cycle [env_0; env_0; env_0] (attack_world 1)
           (mkSnapshot None (Some attack_list)) attack_list).
  - reflexivity.
  - reflexivity.
  - discriminate.
Defined.

(** ** An attack that is drawn *)







(** ** Frames of an animation *)

Lemma sq_nonneg (x : Q) : 0 <= x * x.
Proof. nra. Qed.

Lemma cube_mono (p q : Q) : p <= q -> p * p * p <= q * q * q.
Proof.
  intro H.
  assert (E : q * q * q - p * p * p
              == (q - p) * ((q + p * (1 # 2)) * (q + p * (1 # 2))
                            + (3 # 4) * (p * p))) by ring.
  assert (N : 0 <= (q - p) * ((q + p * (1 # 2)) * (q + p * (1 # 2))
                              + (3 # 4) * (p * p))).
  { apply Qmult_le_0_compat; [lra|].
    pose proof (sq_nonneg (q + p * (1 # 2))).
    pose proof (sq_nonneg p). lra. }
  lra.
Qed.

Lemma pow3_cube (x : Q) : pow3 x == x * x * x.
Proof. unfold pow3. simpl. ring. Qed.

Lemma ease_monotone (p q : Q) : p <= q -> ease p <= ease q.
Proof.
  intro H. unfold ease.
  pose proof (cube_mono p q H) as C1.
  assert (H2 : -2 * q + 2 <= -2 * p + 2) by lra.
  pose proof (cube_mono _ _ H2) as C2.
  destruct (Qltb p (5 # 10)) eqn:Ep; destruct (Qltb q (5 # 10)) eqn:Eq;
    rewrite ?pow3_cube; unfold Qdiv; change (/ 2) with (1 # 2).
  - lra.
  - apply Qltb_true in Ep. apply Qltb_false in Eq.
    assert (Hp : p <= 1 # 2) by lra.
    pose proof (cube_mono p (1 # 2) Hp) as C3.
    assert (Hq : -2 * q + 2 <= 1) by lra.
    pose proof (cube_mono _ _ Hq) as C4.
    lra.
  - apply Qltb_false in Ep. apply Qltb_true in Eq. lra.
  - lra.
Qed.

Lemma ease_Qeq (p q : Q) : p == q -> ease p == ease q.
Proof.
  intro H. apply Qle_antisym; apply ease_monotone; lra.
Qed.

Lemma ease_unit (p : Q) : 0 <= p <= 1 -> 0 <= ease p <= 1.
Proof.
  intros [H0 H1].
  pose proof (ease_monotone 0 p H0) as A.
  pose proof (ease_monotone p 1 H1) as B.
  assert (E0 : ease 0 == 0) by reflexivity.
  assert (E1 : ease 1 == 1) by reflexivity.
  split; lra.
Qed.

Lemma Math_min_le (x y x' y' : Q) :
  x <= x' -> y <= y' -> Math_min x y <= Math_min x' y'.
Proof.
  intros Hx Hy. unfold Math_min.
  destruct (Qle_bool x y) eqn:E; destruct (Qle_bool x' y') eqn:E';
    try apply Qle_bool_iff in E; try apply Qle_bool_iff in E';
    try apply Qle_bool_false in E; try apply Qle_bool_false in E'; lra.
Qed.

Lemma Math_max_le (x y x' y' : Q) :
  x <= x' -> y <= y' -> Math_max x y <= Math_max x' y'.
Proof.
  intros Hx Hy. unfold Math_max.
  destruct (Qle_bool x y) eqn:E; destruct (Qle_bool x' y') eqn:E';
    try apply Qle_bool_iff in E; try apply Qle_bool_iff in E';
    try apply Qle_bool_false in E; try apply Qle_bool_false in E'; lra.
Qed.

Lemma Math_max_0_range (x : Q) : 0 <= Math_max 0 x /\ x <= Math_max 0 x.
Proof.
  unfold Math_max. destruct (Qle_bool 0 x) eqn:E.
  - apply Qle_bool_iff in E. split; lra.
  - apply Qle_bool_false in E. split; lra.
Qed.

Lemma Math_max_0_le (x y : Q) : 0 <= y -> x <= y -> Math_max 0 x <= y.
Proof.
  intros H0 H. unfold Math_max. destruct (Qle_bool 0 x); lra.
Qed.

Lemma scale_le (l x y : Q) : 0 <= l -> x <= y -> l * x <= l * y.
Proof.
  intros Hl H. rewrite (Qmult_comm l x), (Qmult_comm l y).
  apply Qmult_le_compat_r; assumption.
Qed.

Lemma progress_of_le (a : Animation) (t1 t2 : Q) :
  0 < an_duration a -> t1 <= t2 -> progress_of a t1 <= progress_of a t2.
Proof.
  intros Hd H. unfold progress_of. apply Math_min_le; [|lra].
  apply Qdiv_le_mono; [exact Hd | lra].
Qed.

Lemma progress_of_unit (a : Animation) (t : Q) :
  0 < an_duration a -> an_startTime a <= t -> 0 <= progress_of a t <= 1.
Proof.
  intros Hd H. unfold progress_of, Math_min.
  assert (A : 0 <= (t - an_startTime a) / an_duration a)
    by (apply Qle_shift_div_l; lra).
  destruct (Qle_bool ((t - an_startTime a) / an_duration a) 1) eqn:E.
  - apply Qle_bool_iff in E. split; lra.
  - split; lra.
Qed.

Lemma trail_at (a : Animation) (t : Q) (i : nat) :
  (i < 5)%nat ->
  nth i (trailsAt (animate a t)) 0
  = an_pathLength a
    * Math_max 0 (ease (progress_of a t)
                  - (inject_Z (Z.of_nat i) + 1) * (3 # 100)).
Proof.
  intro Hi. unfold animate. cbn [trailsAt].
  apply (nth_map_seq
           (fun i0 : nat =>
              an_pathLength a *
              Math_max 0
                (ease (progress_of a t)
                 - (inject_Z (Z.of_nat i0) + 1) * (3 # 100)))
           trailCount i Hi).
Qed.

Lemma inject_nat_le (i j : nat) :
  (i <= j)%nat -> inject_Z (Z.of_nat i) <= inject_Z (Z.of_nat j).
Proof. intro H. apply inject_Z_le. lia. Qed.

(** X23.  In a frame at or after the start of an animation with positive
    duration and a path of non-negative length, the dash offset and the
    particle's arclength lie in [[0, pathLength]], the stroke opacity lies
    in [[0, 0.7]], and every trail lies between 0 and the particle, a later
    trail never ahead of an earlier one. *)
Theorem animate_frame_bounds (a : Animation) (t : Q) :
  0 < an_duration a -> 0 <= an_pathLength a -> an_startTime a <= t ->
  let fr := animate a t in
  0 <= strokeDashoffset fr <= an_pathLength a /\
  0 <= particleAt fr <= an_pathLength a /\
  0 <= strokeOpacity fr <= 7 # 10 /\
  forall i j : nat,
    (i <= j < 5)%nat ->
    0 <= nth j (trailsAt fr) 0 /\
    nth j (trailsAt fr) 0 <= nth i (trailsAt fr) 0 /\
    nth i (trailsAt fr) 0 <= particleAt fr.
Proof.
  intros Hd Hl Ht fr.
  pose proof (ease_unit _ (progress_of_unit a t Hd Ht)) as [E0 E1].
  assert (S0 : an_pathLength a * 0 == 0) by ring.
  assert (S1 : an_pathLength a * 1 == an_pathLength a) by ring.
  split; [|split; [|split]].
  - unfold fr, animate. cbn [strokeDashoffset].
    pose proof (scale_le (an_pathLength a) 0
                  (1 - ease (progress_of a t)) Hl).
    pose proof (scale_le (an_pathLength a)
                  (1 - ease (progress_of a t)) 1 Hl).
    split; lra.
  - unfold fr, animate. cbn [particleAt].
    pose proof (scale_le (an_pathLength a) 0 (ease (progress_of a t)) Hl).
    pose proof (scale_le (an_pathLength a) (ease (progress_of a t)) 1 Hl).
    split; lra.
  - unfold fr, animate. cbn [strokeOpacity]. unfold Math_min.
    destruct (Qle_bool (ease (progress_of a t) * 2) (7 # 10)) eqn:E.
    + apply Qle_bool_iff in E. split; lra.
    + split; lra.
  - intros i j [Hij Hj]. unfold fr.
    rewrite !trail_at by lia.
    unfold animate. cbn [particleAt].
    pose proof (inject_nat_le i j Hij) as Hq.
    pose proof (inject_nat_le 0 i (Nat.le_0_l i)) as Hi0.
    change (inject_Z (Z.of_nat 0)) with 0 in Hi0.
    set (e := ease (progress_of a t)) in *.
    destruct (Math_max_0_range (e - (inject_Z (Z.of_nat j) + 1) * (3 # 100)))
      as [J0 _].
    assert (JI : Math_max 0 (e - (inject_Z (Z.of_nat j) + 1) * (3 # 100))
                 <= Math_max 0 (e - (inject_Z (Z.of_nat i) + 1) * (3 # 100)))
      by (apply Math_max_le; lra).
    assert (IE : Math_max 0 (e - (inject_Z (Z.of_nat i) + 1) * (3 # 100))
                 <= e)
      by (apply Math_max_0_le; lra).
    split; [|split].
    + pose proof (scale_le (an_pathLength a) 0 _ Hl J0). lra.
    + apply scale_le; assumption.
    + apply scale_le; assumption.
Qed.

Lemma animate_frame_bounds_witness :
  0 <= particleAt (animate animation_100 600) <= an_pathLength animation_100.
Proof.
  apply (animate_frame_bounds animation_100 600);
    reflexivity || discriminate.
Defined.

(** X24.  Time only moves an animation forward: in a later frame the
    particle and every trail are at least as far along the path, no more of
    the stroke is hidden, and the stroke is no more transparent. *)
Theorem animate_advances (a : Animation) (t1 t2 : Q) :
  0 < an_duration a -> 0 <= an_pathLength a -> t1 <= t2 ->
  particleAt (animate a t1) <= particleAt (animate a t2) /\
  strokeDashoffset (animate a t2) <= strokeDashoffset (animate a t1) /\
  strokeOpacity (animate a t1) <= strokeOpacity (animate a t2) /\
  forall i : nat,
    (i < 5)%nat ->
    nth i (trailsAt (animate a t1)) 0 <= nth i (trailsAt (animate a t2)) 0.
Proof.
  intros Hd Hl Ht.
  pose proof (ease_monotone _ _ (progress_of_le a t1 t2 Hd Ht)) as He.
  split; [|split; [|split]].
  - unfold animate. cbn [particleAt]. apply scale_le; assumption.
  - unfold animate. cbn [strokeDashoffset]. apply scale_le; [exact Hl | lra].
  - unfold animate. cbn [strokeOpacity]. apply Math_min_le; lra.
  - intros i Hi. rewrite !trail_at by exact Hi.
    apply scale_le; [exact Hl|]. apply Math_max_le; lra.
Qed.

Lemma animate_advances_witness :
  particleAt (animate animation_100 300)
  <= particleAt (animate animation_100 600).
Proof.
  apply (animate_advances animation_100 300 600);
    reflexivity || discriminate.
Defined.

Lemma progress_of_lt_1 (a : Animation) (t : Q) :
  0 < an_duration a ->
  (progress_of a t < 1 <-> t < an_startTime a + an_duration a).
Proof.
  intro Hd. unfold progress_of, Math_min.
  assert (Hdiv : (t - an_startTime a) / an_duration a * an_duration a
                 == t - an_startTime a)
    by (field; lra).
  set (x := (t - an_startTime a) / an_duration a) in *.
  assert (Hx : x < 1 <-> t < an_startTime a + an_duration a).
  { split; intro H.
    - assert (x * an_duration a < 1 * an_duration a)
        by (apply Qmult_lt_compat_r; assumption).
      lra.
    - apply Qnot_le_lt. intro Hge.
      assert (1 * an_duration a <= x * an_duration a)
        by (apply Qmult_le_compat_r; lra).
      lra. }
  destruct (Qle_bool x 1) eqn:E.
  - exact Hx.
  - apply Qle_bool_false in E. split; intro H; [lra|].
    apply Hx in H. lra.
Qed.

(** X25.  An animation with positive duration requests another frame
    exactly while less than its duration has passed since its start; in a
    frame at or after that time the stroke is fully drawn, the particle is
    at the end of the path and the opacity is 0.7. *)
Theorem animate_ends (a : Animation) (t : Q) :
  0 < an_duration a ->
  (frameRequested (animate a t) = true <->
   t < an_startTime a + an_duration a) /\
  (an_startTime a + an_duration a <= t ->
   strokeDashoffset (animate a t) == 0 /\
   particleAt (animate a t) == an_pathLength a /\
   strokeOpacity (animate a t) == 7 # 10).
Proof.
  intro Hd. pose proof (progress_of_lt_1 a t Hd) as Hlt. split.
  - unfold animate. cbn [frameRequested]. rewrite Qltb_true. exact Hlt.
  - intro Hend.
    assert (Hp : progress_of a t == 1).
    { assert (U : progress_of a t <= 1).
      { unfold progress_of, Math_min.
        destruct (Qle_bool ((t - an_startTime a) / an_duration a) 1) eqn:E;
          [apply Qle_bool_iff in E; exact E | lra]. }
      apply Qle_antisym; [exact U|].
      apply Qnot_lt_le. intro H. apply Hlt in H. lra. }
    assert (He : ease (progress_of a t) == 1).
    { rewrite (ease_Qeq _ 1 Hp). reflexivity. }
    unfold animate. cbn [strokeDashoffset particleAt strokeOpacity].
    split; [rewrite He; ring|]. split; [rewrite He; ring|].
    unfold Math_min.
    destruct (Qle_bool (ease (progress_of a t) * 2) (7 # 10)) eqn:E;
      [|reflexivity].
    apply Qle_bool_iff in E. exfalso. lra.
Qed.

Lemma animate_ends_witness :
  frameRequested (animate animation_100 600) = true <-> 600 < 0 + 1200.
Proof.
  apply (animate_ends animation_100 600). reflexivity.
Defined.

(** ** The log keeps the latest fifteen entries *)

Lemma addLog_logEntries (type message : string) (W : World) entries :
  logEntries W = Some entries ->
  logEntries (addLog type message W)
  = Some ((type, message) :: firstn 14 entries).
Proof. intro H. unfold addLog. rewrite H. reflexivity. Qed.

(** X26.  On a page with a log of at most fifteen entries, after any
    number of calls of [addLog] the log shows the entries added and the
    old ones, newest first, cut off after the fifteenth. *)
Theorem addLogs_keeps_latest (msgs : list (string * string)) (W : World)
  (entries : list (string * string)) :
  logEntries W = Some entries ->
  (List.length entries <= 15)%nat ->
  logEntries (addLogs msgs W) = Some (firstn 15 (rev msgs ++ entries)) /\
  (List.length (firstn 15 (rev msgs ++ entries)) <= 15)%nat.
Proof.
  intros He Hlen. split; [|apply firstn_le_length].
  induction msgs as [|[type message] rest IH] using rev_ind.
  - simpl rev. simpl app. rewrite firstn_all2 by exact Hlen. exact He.
  - unfold addLogs in *. rewrite fold_left_app. simpl fold_left.
    rewrite (addLog_logEntries type message _ _ IH).
    rewrite rev_app_distr.
    transitivity (Some ((type, message) :: firstn 14 (rev rest ++ entries)));
      [|reflexivity].
    f_equal. f_equal. apply firstn_firstn.
Qed.

Lemma addLogs_keeps_latest_witness :
  logEntries (addLogs [("info", "one"); ("warn", "two")]%string empty_world)
  = Some (firstn 15 (rev [("info", "one"); ("warn", "two")]%string ++ [])).
Proof.
  apply (addLogs_keeps_latest [("info", "one"); ("warn", "two")]%string
           empty_world []).
  - reflexivity.
  - simpl. lia.
Defined.

(** ** The info card stays inside the window *)

(** X27.  For a pointer inside the window, the info card as
    [moveInfoCard] places it never reaches past the right or the bottom
    edge of the window: where it would, it is moved to the other side of
    the pointer. *)
Theorem moveInfoCard_inside
  (clientX clientY width height innerWidth innerHeight : Q) :
  clientX <= innerWidth -> clientY <= innerHeight ->
  fst (moveInfoCard clientX clientY width height innerWidth innerHeight)
  + width <= innerWidth /\
  snd (moveInfoCard clientX clientY width height innerWidth innerHeight)
  + height <= innerHeight.
Proof.
  intros Hx Hy. unfold moveInfoCard. cbn [fst snd]. qcases; split; lra.
Qed.

Lemma moveInfoCard_inside_witness :
  fst (moveInfoCard 790 100 200 80 800 600) + 200 <= 800 /\
  snd (moveInfoCard 790 100 200 80 800 600) + 80 <= 600.
Proof.
  apply (moveInfoCard_inside 790 100 200 80 800 600); discriminate.
Defined.
